(** * A selector matcher over node trees: model of [qualifier.py]

    The development follows the Python module top to bottom: the string
    primitives it borrows from [str] ([split], [strip], [join]), the
    [Mode] enumeration, the [Selector] dataclass with its parser and its
    per-node test, the [Selectors] list, and the recursive walk
    [verify_node] driven by [query_selector_all].

    Python objects that the walk touches live in a store: a node is an
    object with an identity (its address), its [children] field holds
    references, and the [matched] list is the one list object that every
    recursive call appends to. *)

From Stdlib Require Import String Ascii NArith.
From stdpp Require Import base option list gmap sets.

Set Warnings "-register-all,-clear-no-such-hyp".

Local Open Scope N_scope.

(** ** Python strings *)

(** A [str] is a sequence of Unicode code points. *)
Abbreviation char := N (only parsing).
Abbreviation str := (list N) (only parsing).

Module PyStr.

(** String literals of the source, read as their code points (ASCII only). *)
Definition lit (s : string) : str :=
  N_of_ascii <$> list_ascii_of_string s.

Definition DOT : char := 46.
Definition HASH : char := 35.
Definition COMMA : char := 44.
Definition SPACE : char := 32.

(** [c.isspace()] for a single code point, the test behind [str.strip()]. *)
Definition isspace (c : char) : bool :=
  ((9 <=? c) && (c <=? 13)) || ((28 <=? c) && (c <=? 32))
  || (c =? 133) || (c =? 160) || (c =? 5760)
  || ((8192 <=? c) && (c <=? 8202))
  || (c =? 8232) || (c =? 8233) || (c =? 8239) || (c =? 8287)
  || (c =? 12288).

(** [bool(s)]: a string is truthy when it is not empty. *)
Definition truthy (s : str) : bool :=
  match s with [] => false | _ :: _ => true end.

(** Cut [s] at every character satisfying [p]; the separators are dropped
    and empty pieces are kept, so [k] separators give [k + 1] pieces. *)
Fixpoint split_by (p : char → bool) (s : str) : list str :=
  match s with
  | [] => [[]]
  | c :: s' =>
      if p c then [] :: split_by p s'
      else match split_by p s' with
           | [] => [[c]]
           | w :: ws => (c :: w) :: ws
           end
  end.

(** [s.split(sep)] for a one-character separator. *)
Definition split (sep : char) (s : str) : list str :=
  split_by (N.eqb sep) s.

(** [sep.join(parts)]. *)
Fixpoint join (sep : str) (parts : list str) : str :=
  match parts with
  | [] => []
  | [w] => w
  | w :: ws => w ++ sep ++ join sep ws
  end.

Fixpoint lstrip (s : str) : str :=
  match s with
  | c :: s' => if isspace c then lstrip s' else s
  | [] => []
  end.

Definition rstrip (s : str) : str := reverse (lstrip (reverse s)).

(** [s.strip()]: leading and trailing whitespace removed. *)
Definition strip (s : str) : str := rstrip (lstrip s).

End PyStr.

Import PyStr.

(** ** [class Mode(IntEnum)] *)

Inductive Mode := ID | CLASS | TAG.

(** ** [node.Node] *)

Abbreviation addr := nat (only parsing).

Module Node.

(** Modelled from the spec: the [Node] class is imported from the module
    [node], which is not part of the sources.  A node exposes a tag name,
    an attribute mapping from string keys to string values, and an ordered
    sequence of child nodes; the children are references to node objects. *)
Record t := mk {
  tag : str;
  attributes : gmap str str;
  children : list addr
}.

End Node.

(** ** [class Selector] *)

Module Selector.

Record t := mk {
  id_ : str;
  klass : gset str;
  tag : str
}.

(** [Selector()]: every field at its default. *)
Definition new : t := {| id_ := []; klass := ∅; tag := [] |}.

(** [self.update_by_mode(mode, chars)].  The method mutates [self] and
    empties the caller's list [chars] in place; both are returned. *)
Definition update_by_mode (self : t) (mode : Mode) (chars : list str)
  : t * list str :=
  if (length chars =? 0)%nat then (self, chars)
  else
    let value := join [] chars in
    let chars := [] in
    match mode with
    | ID => ({| id_ := value; klass := klass self; tag := tag self |}, chars)
    | CLASS =>
        ({| id_ := id_ self; klass := klass self ∪ {[ value ]};
            tag := tag self |}, chars)
    | TAG => ({| id_ := id_ self; klass := klass self; tag := value |}, chars)
    end.

(** The body of [for ch in selector], on the loop variables
    [(sel, mode, chars)]. *)
Definition from_str_step (st : t * Mode * list str) (ch : str)
  : t * Mode * list str :=
  let '(sel, mode, chars) := st in
  if bool_decide (ch = [DOT]) then
    let '(sel, chars) := update_by_mode sel mode chars in
    (sel, CLASS, chars)
  else if bool_decide (ch = [HASH]) then
    let '(sel, chars) := update_by_mode sel mode chars in
    (sel, ID, chars)
  else (sel, mode, chars ++ [ch]).

(** Iterating over a string yields its characters as one-character
    strings. *)
Definition iter (s : str) : list str := (λ c, [c]) <$> s.

(** [Selector.from_str(selector)]. *)
Definition from_str (selector : str) : t :=
  let '(sel, mode, chars) :=
    foldl from_str_step (new, TAG, []) (iter selector) in
  fst (update_by_mode sel mode chars).

(** The same loop as a relation on the loop variables: [scan st s st']
    holds when running the loop over the characters of [s] from [st] ends
    in [st'].  One constructor per branch of the loop body. *)
Inductive scan : t * Mode * list str → str → t * Mode * list str → Prop :=
  | scan_end st : scan st [] st
  | scan_dot sel mode chars sel' chars' s st' :
      update_by_mode sel mode chars = (sel', chars') →
      scan (sel', CLASS, chars') s st' →
      scan (sel, mode, chars) (DOT :: s) st'
  | scan_hash sel mode chars sel' chars' s st' :
      update_by_mode sel mode chars = (sel', chars') →
      scan (sel', ID, chars') s st' →
      scan (sel, mode, chars) (HASH :: s) st'
  | scan_other sel mode chars c s st' :
      c ≠ DOT → c ≠ HASH →
      scan (sel, mode, chars ++ [[c]]) s st' →
      scan (sel, mode, chars) (c :: s) st'.

(** [parses s sel]: a run of [from_str] on [s] returns [sel]. *)
Inductive parses (s : str) (sel : t) : Prop :=
  | parses_run sel' mode chars chars' :
      scan (new, TAG, []) s (sel', mode, chars) →
      update_by_mode sel' mode chars = (sel, chars') →
      parses s sel.

(** The local [class_set] of [match_node]: the class attribute cut at
    every space, each piece stripped, the empty pieces dropped. *)
Definition class_set (node : Node.t) : gset str :=
  let classes :=
    split SPACE (default [] (Node.attributes node !! lit "class")) in
  list_to_set (filter (λ cs, truthy cs) (strip <$> classes)).

(** [self.match_node(node)] (the logging calls have no effect on the
    result and are left out). *)
Definition match_node (self : t) (node : Node.t) : bool :=
  let matched_tag :=
    if truthy (tag self) && negb (bool_decide (tag self = Node.tag node))
    then false else true in
  let id_' := Node.attributes node !! lit "id" in
  let matched_id :=
    if truthy (id_ self) && negb (bool_decide (Some (id_ self) = id_'))
    then false else true in
  let class_set := class_set node in
  let matched_class :=
    if negb (size (klass self) =? 0)%nat
       && negb (bool_decide (klass self ⊆ class_set))
    then false else true in
  matched_tag && matched_id && matched_class.

End Selector.

(** ** [class Selectors] *)

Module Selectors.

Record t := mk { items : list Selector.t }.

(** [Selectors.from_str(selectors_str)]. *)
Definition from_str (selectors_str : str) : t :=
  let selectors := split COMMA selectors_str in
  mk (Selector.from_str <$> (strip <$> selectors)).

(** [self.match_node(node)]: [any] over the members, left to right. *)
Definition match_node (self : t) (node : Node.t) : bool :=
  existsb (λ sel, Selector.match_node sel node) (items self).

End Selectors.

(** ** The object store and the walk *)

(** The node objects reachable from the caller's tree, by address, and the
    list object [matched] that the walk fills. *)
Record store := Store {
  objects : gmap addr Node.t;
  matched : list addr
}.

(** Computations over the store.  [None] stands for a run that does not
    return: the recursion went deeper than the interpreter allows (the
    fuel ran out) or followed a reference to no object. *)
Definition M (A : Type) : Type := store → option (A * store).

#[export] Instance M_ret : MRet M := λ _ x σ, Some (x, σ).
#[export] Instance M_bind : MBind M := λ _ _ f m σ,
  match m σ with
  | Some (x, σ') => f x σ'
  | None => None
  end.

(** Following a reference to a node object. *)
Definition deref (a : addr) : M Node.t :=
  λ σ, match objects σ !! a with
       | Some n => Some (n, σ)
       | None => None
       end.

(** [matched.append(node)]. *)
Definition append (a : addr) : M unit :=
  λ σ, Some (tt, {| objects := objects σ; matched := matched σ ++ [a] |}).

Definition too_deep {A} : M A := λ _, None.

(** [for x in xs: body(x)]. *)
Fixpoint for_each {A} (xs : list A) (body : A → M unit) : M unit :=
  match xs with
  | [] => mret tt
  | x :: xs' => body x ≫= λ _, for_each xs' body
  end.

(** [verify_node(node, selector, matched=matched)]; [fuel] bounds the depth
    of the recursion. *)
Fixpoint verify_node (fuel : nat) (node : addr) (selector : Selectors.t)
  : M unit :=
  match fuel with
  | O => too_deep
  | S fuel' =>
      n ← deref node;
      (if Selectors.match_node selector n then append node else mret tt) ≫= λ _,
      for_each (Node.children n) (λ child, verify_node fuel' child selector)
  end.

(** [query_selector_all(node, selector)], run on the store of node objects
    [h]: the result is the store of node objects after the call together
    with the returned list. *)
Definition query_selector_all (fuel : nat) (h : gmap addr Node.t)
    (node : addr) (selector : str) : option (gmap addr Node.t * list addr) :=
  let matched_nodes := [] in
  match verify_node fuel node (Selectors.from_str selector)
          {| objects := h; matched := matched_nodes |} with
  | Some (_, σ) => Some (objects σ, matched σ)
  | None => None
  end.

(** ** Trees in the store *)

(** The shape of a tree of node objects: the address of the root and the
    subtrees of its children, in order. *)
Inductive tree := T (a : addr) (ts : list tree).

Definition root (t : tree) : addr := match t with T a _ => a end.

(** Pre-order: a node before its children, children left to right. *)
Fixpoint preorder (t : tree) : list addr :=
  match t with
  | T a ts => a :: flat_map preorder ts
  end.

Fixpoint height (t : tree) : nat :=
  match t with
  | T _ ts => S (foldr (λ t' m, Nat.max (height t') m) O ts)
  end.

(** [shaped h t]: the node objects of [h] are laid out as [t] says. *)
Inductive shaped (h : gmap addr Node.t) : tree → Prop :=
  | shaped_T a ts n :
      h !! a = Some n →
      Node.children n = root <$> ts →
      Forall (shaped h) ts →
      shaped h (T a ts).

(** A tree proper: no node object is reached twice. *)
Definition is_tree (h : gmap addr Node.t) (t : tree) : Prop :=
  shaped h t ∧ NoDup (preorder t).

(** Whether the node object at [a] passes the selector list. *)
Definition matches (h : gmap addr Node.t) (sels : Selectors.t) (a : addr)
  : bool :=
  match h !! a with
  | Some n => Selectors.match_node sels n
  | None => false
  end.

(** The store with [l] appended to the [matched] list. *)
Definition extend (σ : store) (l : list addr) : store :=
  {| objects := objects σ; matched := matched σ ++ l |}.

(** ** Reference notions for the statements *)

(** What [strip] returns: the input without a run of whitespace on each
    side, and with no whitespace left at either end. *)
Definition trimmed (s r : str) : Prop :=
  ∃ a b, s = a ++ r ++ b
         ∧ Forall (λ c, isspace c = true) a
         ∧ Forall (λ c, isspace c = true) b
         ∧ (∀ c, head r = Some c → isspace c = false)
         ∧ (∀ c, last r = Some c → isspace c = false).

(** The invariant of the parser loop behind "no empty class is ever
    recorded": the pending characters are non-empty strings. *)
Definition no_empty (st : Selector.t * Mode * list str) : Prop :=
  ([] ∉ Selector.klass (st.1.1)) ∧ Forall (λ w, w ≠ []) (st.2).

(** The class tokens as the specification words them: the class attribute
    cut at every whitespace character, each token
    trimmed, the empty tokens dropped. *)
Definition whitespace_tokens (v : str) : gset str :=
  list_to_set (filter (λ w, truthy w) (strip <$> split_by isspace v)).

(** ** The example tree [div#topDiv.container > [p.note, span]] *)

Definition example_heap : gmap addr Node.t :=
  {[ 0%nat := Node.mk (lit "div")
                {[ lit "id" := lit "topDiv"; lit "class" := lit "container" ]}
                [1%nat; 2%nat];
     1%nat := Node.mk (lit "p") {[ lit "class" := lit "note" ]} [];
     2%nat := Node.mk (lit "span") ∅ [] ]}.

Definition example_tree : tree := T 0 [T 1 []; T 2 []].

(** A node with [class="a   b"] and one with [class="a<TAB>b"]. *)
Definition spaced_node : Node.t :=
  Node.mk (lit "div") {[ lit "class" := lit "a   b" ]} [].

Definition tabbed_node : Node.t :=
  Node.mk (lit "div") {[ lit "class" := [97; 9; 98] ]} [].

(** ** Notions for the properties of the parser and of the walk *)

(** A run of a selector: a string with neither ['.'] nor ['#']. *)
Definition sep_free (s : str) : Prop := (DOT ∉ s) ∧ (HASH ∉ s).

(** The characters of [s] before its first ['.'] or ['#']. *)
Fixpoint tag_run (s : str) : str :=
  match s with
  | [] => []
  | c :: s' => if (c =? DOT) || (c =? HASH) then [] else c :: tag_run s'
  end.

(** [edge h a b]: the node object at [a] has [b] among its children. *)
Definition edge (h : gmap addr Node.t) (a b : addr) : Prop :=
  ∃ n, h !! a = Some n ∧ b ∈ Node.children n.

(** [reaches_cycle h a]: following children from [a] one can reach a
    node that is its own descendant. *)
Definition reaches_cycle (h : gmap addr Node.t) (a : addr) : Prop :=
  ∃ c, rtc (edge h) a c ∧ tc (edge h) c c.

(** A store that is not a tree: the node at [1] is twice a child of the
    node at [0]. *)
Definition shared_heap : gmap addr Node.t :=
  {[ 0%nat := Node.mk (lit "div") ∅ [1%nat; 1%nat];
     1%nat := Node.mk (lit "p") ∅ [] ]}.

Definition shared_tree : tree := T 0 [T 1 []; T 1 []].

(** A store with a cycle: the node at [1] has the root [0] as a child. *)
Definition looped_heap : gmap addr Node.t :=
  {[ 0%nat := Node.mk (lit "div") ∅ [1%nat];
     1%nat := Node.mk (lit "p") ∅ [0%nat] ]}.

(** * Properties *)

(** ** Cutting and trimming strings *)

Section split_facts.
Variable p : char → bool.

Lemma split_by_cons (s : str) : ∃ w ws, split_by p s = w :: ws.
Proof.
  destruct s as [|c s]; simpl; [by eauto|].
  destruct (p c); [by eauto|].
  destruct (split_by p s); eauto.
Qed.

Lemma split_by_length (s : str) :
  length (split_by p s) = S (length (filter (λ c, p c) s)).
Proof.
  induction s as [|c s IH]; [done|]. simpl.
  rewrite filter_cons. destruct (p c) eqn:Hc.
  - rewrite decide_True by done. simpl. by rewrite IH.
  - rewrite decide_False by (by intros []). rewrite <- IH.
    by destruct (split_by_cons s) as (w & ws & ->).
Qed.

Lemma split_by_pieces (s : str) :
  Forall (Forall (λ c, p c = false)) (split_by p s).
Proof.
  induction s as [|c s IH]; simpl; [by repeat constructor|].
  destruct (p c) eqn:Hc; [by constructor|].
  destruct (split_by p s) as [|w ws]; [by repeat constructor|].
  inversion_clear IH. by repeat constructor.
Qed.

Lemma split_by_ext (q : char → bool) (s : str) :
  Forall (λ c, p c = q c) s → split_by p s = split_by q s.
Proof.
  induction 1 as [|c s Hc _ IH]; [done|]. simpl in *. by rewrite Hc, IH.
Qed.
End split_facts.

Lemma join_cons (sep w w' : str) (ws : list str) :
  join sep (w :: w' :: ws) = w ++ sep ++ join sep (w' :: ws).
Proof. done. Qed.

Lemma join_split (sep : char) (s : str) : join [sep] (split sep s) = s.
Proof.
  unfold split. induction s as [|c s IH]; [done|]. simpl.
  destruct (split_by_cons (N.eqb sep) s) as (w & ws & Hs).
  rewrite Hs in *. destruct (N.eqb_spec sep c) as [->|_].
  - by rewrite join_cons, IH.
  - destruct ws as [|w' ws]; [by simplify_eq/=|].
    rewrite join_cons in IH |- *. by rewrite <- IH.
Qed.

Lemma split_no_sep (sep : char) (s : str) :
  Forall (λ w, sep ∉ w) (split sep s).
Proof.
  eapply Forall_impl; [apply split_by_pieces|]. simpl.
  intros w Hw Hin. rewrite Forall_forall in Hw.
  apply Hw in Hin. by rewrite N.eqb_refl in Hin.
Qed.

Lemma lstrip_spec (s : str) :
  ∃ l, s = l ++ lstrip s ∧ Forall (λ c, isspace c = true) l
       ∧ (∀ c, head (lstrip s) = Some c → isspace c = false).
Proof.
  induction s as [|c s (l & Hl & Hsp & Hhd)].
  - exists []. by repeat split.
  - simpl. destruct (isspace c) eqn:Hc.
    + exists (c :: l). repeat split; [by rewrite Hl at 1|by constructor|done].
    + exists []. repeat split; [done|]. intros c' [= <-]. done.
Qed.

Lemma lstrip_spaces (s : str) :
  Forall (λ c, isspace c = true) s → lstrip s = [].
Proof. induction 1 as [|c s Hc _ IH]; [done|]. simpl. by rewrite Hc. Qed.

Lemma lstrip_suffix_last (s : str) c :
  last (lstrip s) = Some c → last s = Some c.
Proof.
  destruct (lstrip_spec s) as (l & Hl & _). intros H.
  rewrite Hl, last_app, H. done.
Qed.

Lemma strip_spec (s : str) : trimmed s (strip s).
Proof.
  destruct (lstrip_spec s) as (a & Ha & Hsa & Hhd).
  unfold strip, rstrip.
  destruct (lstrip_spec (reverse (lstrip s))) as (b & Hb & Hsb & Hlast).
  set (r := lstrip (reverse (lstrip s))) in *.
  assert (Hmid : lstrip s = reverse r ++ reverse b).
  { by rewrite <- reverse_app, <- Hb, reverse_involutive. }
  exists a, (reverse b). repeat split.
  - by rewrite <- Hmid.
  - done.
  - by apply Forall_reverse.
  - intros c Hc. destruct (reverse r) as [|c' r'] eqn:Hr; [done|].
    simplify_eq/=. apply Hhd. by rewrite Hmid.
  - intros c Hc. apply Hlast. rewrite last_reverse in Hc. done.
Qed.

Lemma strip_spaces (s : str) :
  Forall (λ c, isspace c = true) s → strip s = [].
Proof. intros H. unfold strip. by rewrite lstrip_spaces. Qed.

(** ** The three checks of [match_node] *)

Lemma guard_true (a b : bool) :
  (if a && negb b then false else true) = true ↔ a = false ∨ b = true.
Proof. destruct a, b; simpl; intuition congruence. Qed.

Lemma truthy_false (s : str) : truthy s = false ↔ s = [].
Proof. by destruct s. Qed.

Lemma has_members_false (X : gset str) :
  negb (size X =? 0)%nat = false ↔ X = ∅.
Proof.
  rewrite negb_false_iff, Nat.eqb_eq, size_empty_iff. by unfold_leibniz.
Qed.

Lemma match_node_true (sel : Selector.t) (node : Node.t) :
  Selector.match_node sel node = true ↔
    (Selector.tag sel = [] ∨ Selector.tag sel = Node.tag node)
    ∧ (Selector.id_ sel = []
       ∨ Some (Selector.id_ sel) = Node.attributes node !! lit "id")
    ∧ (Selector.klass sel = ∅
       ∨ Selector.klass sel ⊆ Selector.class_set node).
Proof.
  unfold Selector.match_node. cbv zeta.
  rewrite !andb_true_iff, !guard_true, !truthy_false, has_members_false,
    !bool_decide_eq_true.
  tauto.
Qed.

Lemma filter_all {A} (P : A → Prop) `{∀ x, Decision (P x)} (l : list A) :
  Forall P l → filter P l = l.
Proof.
  induction 1 as [|x l Hx _ IH]; [done|].
  by rewrite filter_cons, decide_True, IH.
Qed.

(** ** The parser loop *)

Lemma from_str_step_dot sel mode chars :
  Selector.from_str_step (sel, mode, chars) [DOT] =
    ((Selector.update_by_mode sel mode chars).1, CLASS,
     (Selector.update_by_mode sel mode chars).2).
Proof. simpl. by destruct (Selector.update_by_mode sel mode chars). Qed.

Lemma from_str_step_hash sel mode chars :
  Selector.from_str_step (sel, mode, chars) [HASH] =
    ((Selector.update_by_mode sel mode chars).1, ID,
     (Selector.update_by_mode sel mode chars).2).
Proof. simpl. by destruct (Selector.update_by_mode sel mode chars). Qed.

Lemma from_str_step_other sel mode chars c :
  c ≠ DOT → c ≠ HASH →
  Selector.from_str_step (sel, mode, chars) [c] = (sel, mode, chars ++ [[c]]).
Proof.
  intros Hd Hh. unfold Selector.from_str_step.
  rewrite !bool_decide_eq_false_2; [done| |]; by intros [= ?].
Qed.

Lemma scan_foldl (s : str) :
  ∀ st, Selector.scan st s (foldl Selector.from_str_step st (Selector.iter s)).
Proof.
  induction s as [|c s IH]; intros [[sel mode] chars]; [by constructor|].
  unfold Selector.iter. rewrite fmap_cons. cbn [foldl].
  destruct (decide (c = DOT)) as [->|Hd]; [|destruct (decide (c = HASH)) as [->|Hh]].
  - rewrite from_str_step_dot. eapply Selector.scan_dot; [|apply IH].
    by destruct (Selector.update_by_mode sel mode chars).
  - rewrite from_str_step_hash. eapply Selector.scan_hash; [|apply IH].
    by destruct (Selector.update_by_mode sel mode chars).
  - rewrite from_str_step_other by done. apply Selector.scan_other; [done..|].
    apply IH.
Qed.

Lemma scan_functional st s st' :
  Selector.scan st s st' →
  st' = foldl Selector.from_str_step st (Selector.iter s).
Proof.
  induction 1 as [st|sel mode chars sel' chars' s st' Hu _ IH
                    |sel mode chars sel' chars' s st' Hu _ IH
                    |sel mode chars c s st' Hd Hh _ IH];
    [done|unfold Selector.iter; rewrite fmap_cons; cbn [foldl]..].
  - by rewrite from_str_step_dot, Hu.
  - by rewrite from_str_step_hash, Hu.
  - by rewrite from_str_step_other.
Qed.

Lemma parses_from_str (s : str) : Selector.parses s (Selector.from_str s).
Proof.
  unfold Selector.from_str.
  pose proof (scan_foldl s (Selector.new, TAG, [])) as Hscan.
  destruct (foldl _ _ _) as [[sel mode] chars].
  eapply Selector.parses_run; [exact Hscan|].
  apply surjective_pairing.
Qed.

Lemma parses_functional (s : str) sel :
  Selector.parses s sel → sel = Selector.from_str s.
Proof.
  intros [sel' mode chars chars' Hscan Hu].
  apply scan_functional in Hscan. unfold Selector.from_str.
  by rewrite <- Hscan, Hu.
Qed.

Lemma join_nonempty (chars : list str) :
  chars ≠ [] → Forall (λ w, w ≠ []) chars → join [] chars ≠ [].
Proof.
  destruct chars as [|[|c w] ws]; [done|by inversion 2|].
  intros _ _. by destruct ws.
Qed.

Lemma update_by_mode_no_empty sel mode chars :
  no_empty (sel, mode, chars) →
  ([] ∉ Selector.klass ((Selector.update_by_mode sel mode chars).1))
  ∧ Forall (λ w, w ≠ []) ((Selector.update_by_mode sel mode chars).2).
Proof.
  intros [Hk Hc]. simpl in *. unfold no_empty, Selector.update_by_mode.
  destruct chars as [|w ws]; [done|].
  assert (join [] (w :: ws) ≠ []) by by apply join_nonempty.
  destruct mode; simpl; (split; [|done]); try done.
  by intros [?|?%elem_of_singleton]%elem_of_union.
Qed.

Lemma from_str_no_empty (s : str) :
  [] ∉ Selector.klass (Selector.from_str s).
Proof.
  unfold Selector.from_str.
  assert (Hinv : no_empty (foldl Selector.from_str_step
                             (Selector.new, TAG, []) (Selector.iter s))).
  { assert (H0 : no_empty (Selector.new, TAG, [])).
    { split; simpl; [apply not_elem_of_empty|done]. }
    revert H0. generalize (Selector.new, TAG, ([] : list str)).
    induction s as [|c s IH]; intros [[sel mode] chars] Hst; [done|].
    unfold Selector.iter. rewrite fmap_cons. cbn [foldl]. apply IH.
    destruct (update_by_mode_no_empty sel mode chars Hst) as (Hk & Hc).
    destruct (decide (c = DOT)) as [->|Hd];
      [|destruct (decide (c = HASH)) as [->|Hh]].
    - by rewrite from_str_step_dot.
    - by rewrite from_str_step_hash.
    - rewrite from_str_step_other by done. destruct Hst as [Hk' Hc'].
      split; simpl in *; [done|]. apply Forall_app. by repeat constructor. }
  destruct (foldl _ _ _) as [[sel mode] chars].
  by destruct (update_by_mode_no_empty sel mode chars Hinv) as (Hk & _).
Qed.

(** ** The walk *)

Lemma extend_nil σ : extend σ [] = σ.
Proof. destruct σ. unfold extend. simpl. by rewrite app_nil_r. Qed.

Lemma extend_extend σ l1 l2 : extend (extend σ l1) l2 = extend σ (l1 ++ l2).
Proof. unfold extend. simpl. by rewrite app_assoc. Qed.

(** One call of [verify_node] on a node object that exists. *)
Lemma verify_node_S fuel a sels σ n :
  objects σ !! a = Some n →
  verify_node (S fuel) a sels σ =
    for_each (Node.children n) (λ child, verify_node fuel child sels)
      (if Selectors.match_node sels n then extend σ [a] else σ).
Proof.
  intros Hn. simpl. unfold mbind, M_bind, deref. rewrite Hn.
  by destruct (Selectors.match_node sels n).
Qed.

Lemma verify_node_Some fuel a sels σ r :
  verify_node fuel a sels σ = Some r →
  ∃ fuel' n, fuel = S fuel' ∧ objects σ !! a = Some n.
Proof.
  destruct fuel as [|fuel']; [done|]. simpl. unfold mbind, M_bind, deref.
  destruct (objects σ !! a) as [n|]; [by eauto|done].
Qed.

Lemma for_each_cons {A} (x : A) xs body σ :
  for_each (x :: xs) body σ =
    match body x σ with
    | Some (_, σ') => for_each xs body σ'
    | None => None
    end.
Proof. done. Qed.

Lemma height_children a ts :
  Forall (λ t, (height t < height (T a ts))%nat) ts.
Proof.
  simpl. induction ts as [|t ts IH]; constructor; simpl; [lia|].
  eapply Forall_impl; [exact IH|]. simpl. lia.
Qed.

Section walk.
Variable sels : Selectors.t.

(** The walk over a laid-out tree appends the matching nodes of the tree
    in pre-order and leaves the node objects alone. *)
Lemma verify_node_shaped fuel :
  ∀ t σ, shaped (objects σ) t → (height t ≤ fuel)%nat →
    verify_node fuel (root t) sels σ =
      Some (tt, extend σ (filter (λ a, matches (objects σ) sels a)
                            (preorder t))).
Proof.
  induction fuel as [|fuel IH]; intros [a ts] σ Hsh Hh; [simpl in Hh; lia|].
  inversion_clear Hsh as [?? n Hn Hch Hts].
  pose proof (height_children a ts) as Hts'.
  assert (Hfuel : Forall (λ t, (height t ≤ fuel)%nat) ts).
  { eapply Forall_impl; [exact Hts'|]. simpl in *. lia. }
  clear Hts' Hh.
  simpl root. rewrite (verify_node_S _ _ _ _ n) by done. rewrite Hch.
  simpl preorder. rewrite filter_cons.
  assert (Hm : matches (objects σ) sels a = Selectors.match_node sels n).
  { unfold matches. by rewrite Hn. }
  rewrite Hm. clear Hm.
  set (σ1 := if Selectors.match_node sels n then extend σ [a] else σ).
  assert (Hσ1 : objects σ1 = objects σ) by (subst σ1; by destruct Selectors.match_node).
  assert (Hgoal : ∀ l, extend σ1 l =
    extend σ (if decide (Selectors.match_node sels n) then a :: l else l)).
  { intros l. subst σ1. destruct (Selectors.match_node sels n); simpl.
    - by rewrite extend_extend.
    - done. }
  rewrite <- Hgoal, <- Hσ1. rewrite <- Hσ1 in Hts. clear Hgoal Hσ1 Hn Hch.
  clearbody σ1. clear σ. revert σ1 Hts.
  induction ts as [|t ts IHts]; intros σ Hts.
  - simpl. by rewrite extend_nil.
  - inversion_clear Hts as [|?? Ht Hts0]. inversion_clear Hfuel as [|?? Hf Hfs].
    rewrite fmap_cons, for_each_cons, IH by done.
    simpl flat_map. rewrite filter_app, <- extend_extend.
    by apply (IHts Hfs (extend σ (filter _ (preorder t)))).
Qed.

(** Whatever the store holds, a walk that returns has not changed any node
    object and has only added to the end of [matched]. *)
Lemma verify_node_frame fuel :
  ∀ a σ u σ', verify_node fuel a sels σ = Some (u, σ') →
    objects σ' = objects σ ∧ ∃ l, matched σ' = matched σ ++ l.
Proof.
  induction fuel as [|fuel IH]; intros a σ u σ' Hrun; [done|].
  destruct (verify_node_Some _ _ _ _ _ Hrun) as (? & n & _ & Hn).
  rewrite (verify_node_S _ _ _ _ n) in Hrun by done.
  set (σ1 := if Selectors.match_node sels n then extend σ [a] else σ) in *.
  assert (Hσ1 : objects σ1 = objects σ ∧ ∃ l, matched σ1 = matched σ ++ l).
  { subst σ1. destruct Selectors.match_node; simpl; split; eauto.
    exists []. by rewrite app_nil_r. }
  destruct Hσ1 as (<- & l1 & Hl1).
  cut (objects σ' = objects σ1 ∧ ∃ l, matched σ' = matched σ1 ++ l).
  { intros (-> & l & ->). split; [done|]. rewrite Hl1, <- app_assoc. eauto. }
  clear Hl1 Hn. revert Hrun. generalize σ1. clear σ1 σ.
  induction (Node.children n) as [|c cs IHcs]; intros σ Hrun.
  - simpl in Hrun. unfold mret, M_ret in Hrun. simplify_eq.
    split; [done|]. exists []. by rewrite app_nil_r.
  - rewrite for_each_cons in Hrun.
    destruct (verify_node fuel c sels σ) as [[[] σ2]|] eqn:Hc; [|done].
    apply IH in Hc as (<- & l2 & Hl2).
    apply IHcs in Hrun as (-> & l3 & ->).
    split; [done|]. rewrite Hl2, <- app_assoc. eauto.
Qed.

End walk.

Lemma tree_ind_Forall (P : tree → Prop) :
  (∀ a ts, Forall P ts → P (T a ts)) → ∀ t, P t.
Proof.
  intros HT t. cut (∀ k t', (height t' < k)%nat → P t'); [by eauto|].
  induction k as [|k IH]; intros [a ts] Hh; [lia|].
  apply HT. eapply Forall_impl; [apply (height_children a)|].
  intros t' Ht'. apply IH. simpl in *. lia.
Qed.

Lemma shaped_lookup h t :
  shaped h t → ∀ a, a ∈ preorder t → is_Some (h !! a).
Proof.
  induction t as [a ts IH] using tree_ind_Forall.
  inversion_clear 1 as [?? n Hn _ Hts]. intros b. simpl.
  rewrite elem_of_cons. intros [->|Hb]; [by eauto|].
  apply list_elem_of_In, in_flat_map in Hb as (t & Ht & Hb).
  apply list_elem_of_In in Ht, Hb.
  rewrite Forall_forall in IH, Hts. eauto.
Qed.

Lemma query_selector_all_shaped fuel h t selector :
  shaped h t → (height t ≤ fuel)%nat →
  query_selector_all fuel h (root t) selector =
    Some (h, filter (λ a, matches h (Selectors.from_str selector) a)
               (preorder t)).
Proof.
  intros Hsh Hh. unfold query_selector_all.
  by rewrite verify_node_shaped.
Qed.

(** The example tree is a tree. *)
Lemma example_is_tree : is_tree example_heap example_tree.
Proof.
  split.
  - repeat (econstructor; try by vm_compute).
  - apply (bool_decide_unpack _). by vm_compute.
Qed.

(** ** The claims about matching one node *)

(** C2.  A selector matches a node exactly when the three checks pass:
    its tag is empty or is the node's tag; its id is empty or is the
    node's [id] attribute, an absent attribute counting as the empty
    string; its class set is empty or is included in the node's class
    tokens. *)
Theorem C2_match_node_three_checks (sel : Selector.t) (node : Node.t) :
  Selector.match_node sel node = true ↔
    (Selector.tag sel = [] ∨ Selector.tag sel = Node.tag node)
    ∧ (Selector.id_ sel = []
       ∨ Selector.id_ sel = default [] (Node.attributes node !! lit "id"))
    ∧ (Selector.klass sel = ∅
       ∨ Selector.klass sel ⊆ Selector.class_set node).
Proof.
  rewrite match_node_true.
  destruct (Node.attributes node !! lit "id") as [v|]; simpl.
  - split; intros (Ht & [Hi|Hi] & Hc); repeat split; auto; right; congruence.
  - split; intros (Ht & [Hi|Hi] & Hc); repeat split; auto; discriminate.
Qed.

Lemma class_set_elem (node : Node.t) (tok : str) :
  tok ∈ Selector.class_set node ↔
    tok ≠ [] ∧ ∃ w, w ∈ split SPACE
                      (default [] (Node.attributes node !! lit "class"))
                    ∧ tok = strip w.
Proof.
  unfold Selector.class_set.
  rewrite elem_of_list_to_set, list_elem_of_filter, list_elem_of_fmap.
  assert (Htok : truthy tok ↔ tok ≠ []) by (by destruct tok).
  rewrite Htok. naive_solver.
Qed.

Lemma class_set_whitespace (node : Node.t) :
  Forall (λ c, isspace c = true → c = SPACE)
    (default [] (Node.attributes node !! lit "class")) →
  Selector.class_set node =
    whitespace_tokens (default [] (Node.attributes node !! lit "class")).
Proof.
  intros Hsp. unfold Selector.class_set, whitespace_tokens, split.
  do 3 f_equal. apply split_by_ext.
  eapply Forall_impl; [exact Hsp|]. cbv beta. intros c Hc.
  destruct (N.eqb_spec SPACE c) as [<-|Hne]; [by vm_compute|].
  destruct (isspace c); [|done]. by destruct Hne; rewrite Hc.
Qed.

(** The claim C3 as worded fails on a class attribute whose tokens are
    separated by a tab: the code keeps ["a<TAB>b"] as one token, where
    cutting at whitespace gives the two tokens ["a"] and ["b"], and the
    selector [.a.b] does not match. *)
Lemma C3_tab_separated_counterexample :
  Selector.class_set tabbed_node = {[ [97; 9; 98] ]}
  ∧ whitespace_tokens [97; 9; 98] = {[ lit "a"; lit "b" ]}
  ∧ Selector.class_set tabbed_node ≠ whitespace_tokens [97; 9; 98]
  ∧ Selector.match_node (Selector.from_str (lit ".a.b")) tabbed_node = false.
Proof.
  assert (H1 : Selector.class_set tabbed_node = {[ [97; 9; 98] ]})
    by (by vm_compute).
  assert (H2 : whitespace_tokens [97; 9; 98] = {[ lit "a"; lit "b" ]})
    by (by vm_compute).
  split; [done|]. split; [done|]. split; [|by vm_compute].
  rewrite H1, H2. intros Heq.
  assert (Hin : lit "a" ∈ ({[ [97; 9; 98] ]} : gset str)).
  { rewrite Heq. apply elem_of_union_l. by apply elem_of_singleton. }
  by apply elem_of_singleton in Hin.
Qed.

(** C3, amended.  The class tokens of a node are the non-empty pieces,
    trimmed of whitespace, of its class attribute cut at every space
    character (U+0020); when the attribute has no other whitespace than
    spaces, these are the tokens obtained by cutting at whitespace.  A node
    with [class="a   b"] matches [.a.b], and a node with no class attribute
    has no class token. *)
Theorem C3_class_tokens_space_separated (node : Node.t) :
  (∀ tok, tok ∈ Selector.class_set node ↔
     tok ≠ [] ∧ ∃ w, w ∈ split SPACE
                       (default [] (Node.attributes node !! lit "class"))
                     ∧ tok = strip w)
  ∧ (Forall (λ c, isspace c = true → c = SPACE)
       (default [] (Node.attributes node !! lit "class")) →
     Selector.class_set node =
       whitespace_tokens (default [] (Node.attributes node !! lit "class")))
  ∧ (Node.attributes node !! lit "class" = None →
       Selector.class_set node = ∅)
  ∧ (Node.attributes node !! lit "class" = Some (lit "a   b") →
       Selector.match_node (Selector.from_str (lit ".a.b")) node = true).
Proof.
  split; [apply class_set_elem|].
  split; [apply class_set_whitespace|]. split.
  - intros Hnone. unfold Selector.class_set. rewrite Hnone. by vm_compute.
  - intros Hab.
    assert (Hset : Selector.class_set node = {[ lit "a"; lit "b" ]}).
    { unfold Selector.class_set. rewrite Hab. by vm_compute. }
    change (Selector.from_str (lit ".a.b"))
      with (Selector.mk [] ({[ lit "a" ]} ∪ {[ lit "b" ]}) []).
    apply match_node_true. simpl. rewrite Hset. repeat split; auto.
Qed.

Lemma C3_class_tokens_space_separated_witness :
  Selector.class_set spaced_node = whitespace_tokens (lit "a   b")
  ∧ Selector.match_node (Selector.from_str (lit ".a.b")) spaced_node = true.
Proof.
  assert (Hspaces : Forall (λ c, isspace c = true → c = SPACE)
            (default [] (Node.attributes spaced_node !! lit "class"))).
  { vm_compute. repeat constructor; intros H; solve [done | discriminate H]. }
  destruct (C3_class_tokens_space_separated spaced_node)
    as (_ & Hset & _ & Hmatch).
  split; [exact (Hset Hspaces)|]. apply Hmatch. by vm_compute.
Defined.

(** ** The claims about parsing *)

(** C4.  Parsing a selector list cuts the string at its commas (the pieces
    joined by commas give the string back, and no piece holds a comma),
    trims the whitespace at both ends of each piece, and parses each
    trimmed piece on its own, in order; a piece made of whitespace only
    (or empty) gives the universal selector; and a selector list matches a
    node exactly when one of its members does. *)
Theorem C4_selector_list_parsing (selectors_str : str) :
  let pieces := split COMMA selectors_str in
  join [COMMA] pieces = selectors_str
  ∧ Forall (λ w, COMMA ∉ w) pieces
  ∧ Selectors.items (Selectors.from_str selectors_str)
      = (λ w, Selector.from_str (strip w)) <$> pieces
  ∧ Forall (λ w, trimmed w (strip w)) pieces
  ∧ Forall (λ w, Forall (λ c, isspace c = true) w →
                 Selector.from_str (strip w) = Selector.mk [] ∅ []) pieces
  ∧ (∀ (sels : Selectors.t) (node : Node.t),
       Selectors.match_node sels node = true ↔
         ∃ sel, sel ∈ Selectors.items sels
                ∧ Selector.match_node sel node = true).
Proof.
  intros pieces. repeat split.
  - apply join_split.
  - apply split_no_sep.
  - unfold Selectors.from_str. simpl. by rewrite <- list_fmap_compose.
  - apply Forall_forall. intros w _. apply strip_spec.
  - apply Forall_forall. intros w _ Hw. by rewrite strip_spaces.
  - unfold Selectors.match_node. rewrite existsb_exists.
    intros (sel & Hin & Hm). exists sel. by rewrite list_elem_of_In.
  - unfold Selectors.match_node. rewrite existsb_exists.
    intros (sel & Hin & Hm). exists sel. by rewrite <- list_elem_of_In.
Qed.

(** C10.  The parsed selector list is never empty: it has one member more
    than the string has commas. *)
Theorem C10_selector_list_nonempty (selectors_str : str) :
  Selectors.items (Selectors.from_str selectors_str) ≠ []
  ∧ length (Selectors.items (Selectors.from_str selectors_str))
      = S (length (filter (λ c, c = COMMA) selectors_str)).
Proof.
  assert (Hlen : length (Selectors.items (Selectors.from_str selectors_str))
                 = S (length (filter (λ c, c = COMMA) selectors_str))).
  { unfold Selectors.from_str, split. simpl.
    rewrite !length_fmap, split_by_length. do 2 f_equal.
    apply list_filter_iff. intros c.
    rewrite Is_true_true, N.eqb_eq. naive_solver. }
  split; [|exact Hlen].
  intros Hnil. by rewrite Hnil in Hlen.
Qed.

(** C5.  Parsing a selector is total and deterministic: on every string
    the parser loop runs to its end and returns a selector, which is
    [from_str s]; no run returns another one; the empty string gives the
    universal selector. *)
Theorem C5_parsing_total_deterministic (s : str) :
  (∃ sel, Selector.parses s sel)
  ∧ Selector.parses s (Selector.from_str s)
  ∧ (∀ sel1 sel2,
       Selector.parses s sel1 → Selector.parses s sel2 → sel1 = sel2)
  ∧ (∀ s', s = s' → Selector.from_str s = Selector.from_str s')
  ∧ Selector.from_str [] = Selector.mk [] ∅ [].
Proof.
  repeat split.
  - exists (Selector.from_str s). apply parses_from_str.
  - apply parses_from_str.
  - intros sel1 sel2 H1%parses_functional H2%parses_functional. congruence.
  - by intros s' ->.
Qed.

(** C6.  Flushing with nothing pending changes neither the selector nor
    the pending list; ["div"], ["div."] and ["div.."] all parse to the
    selector with tag ["div"], no id and no class; and no string at all
    parses to a selector with the empty string among its classes. *)
Theorem C6_empty_flush_is_noop :
  (∀ sel mode, Selector.update_by_mode sel mode [] = (sel, []))
  ∧ Selector.from_str (lit "div") = Selector.mk [] ∅ (lit "div")
  ∧ Selector.from_str (lit "div.") = Selector.mk [] ∅ (lit "div")
  ∧ Selector.from_str (lit "div..") = Selector.mk [] ∅ (lit "div")
  ∧ (∀ s, [] ∉ Selector.klass (Selector.from_str s)).
Proof.
  split; [done|]. do 3 (split; [by vm_compute|]). apply from_str_no_empty.
Qed.

(** C7.  The id run and the class run may come in either order:
    ["div.container#topDiv"] and ["div#topDiv.container"] parse to the same
    selector, with tag ["div"], id ["topDiv"] and the one class
    ["container"]. *)
Theorem C7_id_class_order_independent :
  Selector.from_str (lit "div.container#topDiv")
    = Selector.mk (lit "topDiv") {[ lit "container" ]} (lit "div")
  ∧ Selector.from_str (lit "div#topDiv.container")
    = Selector.mk (lit "topDiv") {[ lit "container" ]} (lit "div")
  ∧ Selector.from_str (lit "div.container#topDiv")
    = Selector.from_str (lit "div#topDiv.container").
Proof. repeat split; by vm_compute. Qed.

(** ** The claims about the walk *)

(** C1.  For every tree of node objects and every selector string, the
    query returns, without touching the store, exactly the nodes of the
    tree that pass the parsed selector list, in pre-order (a node before
    its children, children left to right); the root is eligible, every
    matching node of the whole tree is there, and none is there twice. *)
Theorem C1_query_selector_all_preorder
    (h : gmap addr Node.t) (t : tree) (selector : str) (fuel : nat)
    (Htree : is_tree h t) (Hfuel : (height t ≤ fuel)%nat) :
  let sels := Selectors.from_str selector in
  ∃ res,
    query_selector_all fuel h (root t) selector = Some (h, res)
    ∧ res = filter (λ a, matches h sels a) (preorder t)
    ∧ (∀ a, a ∈ res ↔ a ∈ preorder t ∧ matches h sels a = true)
    ∧ sublist res (preorder t)
    ∧ (root t ∈ res ↔ matches h sels (root t) = true)
    ∧ NoDup res.
Proof.
  intros sels. destruct Htree as [Hsh Hnd].
  exists (filter (λ a, matches h sels a) (preorder t)).
  assert (Hin : ∀ a, a ∈ filter (λ a, matches h sels a) (preorder t)
                     ↔ a ∈ preorder t ∧ matches h sels a = true).
  { intros a. rewrite list_elem_of_filter, Is_true_true. tauto. }
  repeat split.
  - by apply query_selector_all_shaped.
  - by apply Hin.
  - by apply Hin.
  - intros [? ?]. by apply Hin.
  - apply sublist_filter.
  - intros Hr. by apply Hin in Hr as [_ ?].
  - intros Hr. apply Hin. split; [|done]. destruct t. simpl. left.
  - by apply NoDup_filter.
Qed.

Lemma C1_query_selector_all_preorder_witness :
  ∃ res,
    query_selector_all 2 example_heap 0 (lit "span, p")
      = Some (example_heap, res)
    ∧ res = [1; 2]%nat.
Proof.
  assert (Hfuel : (height example_tree ≤ 2)%nat) by (vm_compute; lia).
  destruct (C1_query_selector_all_preorder example_heap example_tree
              (lit "span, p") 2 example_is_tree Hfuel)
    as (res & Hq & Hres & _).
  exists res. split; [exact Hq|]. rewrite Hres. by vm_compute.
Defined.

(** C8.  The selector with no tag, no id and no class matches every node;
    so the query with the empty selector string returns every node of the
    tree, root included, in pre-order. *)
Theorem C8_universal_selector :
  (∀ node, Selector.match_node (Selector.mk [] ∅ []) node = true)
  ∧ (∀ (h : gmap addr Node.t) (t : tree) (fuel : nat),
       is_tree h t → (height t ≤ fuel)%nat →
       query_selector_all fuel h (root t) [] = Some (h, preorder t)
       ∧ root t ∈ preorder t).
Proof.
  assert (Hall : ∀ node, Selector.match_node (Selector.mk [] ∅ []) node = true).
  { intros node. apply match_node_true. simpl. tauto. }
  split; [exact Hall|]. intros h t fuel [Hsh _] Hfuel. split.
  - rewrite query_selector_all_shaped by done. do 2 f_equal.
    apply filter_all. apply Forall_forall. intros a Ha.
    apply shaped_lookup with (a := a) in Hsh as [n Hn]; [|done].
    unfold matches. rewrite Hn.
    change (Selectors.from_str []) with (Selectors.mk [Selector.mk [] ∅ []]).
    unfold Selectors.match_node. simpl. by rewrite Hall.
  - destruct t. simpl. left.
Qed.

Lemma C8_universal_selector_witness :
  query_selector_all 2 example_heap 0 [] = Some (example_heap, [0; 1; 2]%nat).
Proof.
  assert (Hfuel : (height example_tree ≤ 2)%nat) by (vm_compute; lia).
  destruct C8_universal_selector as [_ Hq].
  destruct (Hq example_heap example_tree 2%nat example_is_tree Hfuel)
    as [Hres _].
  exact Hres.
Defined.

(** C9.  A query never changes a node object: whenever the query returns,
    on any store, the store of node objects it leaves is the one it was
    given, so each node has the tag, the attributes and the children it
    had.  The test of a node reads its tag and its [id] and [class]
    attributes and nothing else. *)
Theorem C9_query_never_mutates :
  (∀ fuel (h h' : gmap addr Node.t) node selector res,
     query_selector_all fuel h node selector = Some (h', res) →
     h' = h
     ∧ ∀ a, Node.tag <$> h' !! a = Node.tag <$> h !! a
            ∧ Node.attributes <$> h' !! a = Node.attributes <$> h !! a
            ∧ Node.children <$> h' !! a = Node.children <$> h !! a)
  ∧ (∀ fuel node sels σ u σ',
       verify_node fuel node sels σ = Some (u, σ') →
       objects σ' = objects σ)
  ∧ (∀ sels n1 n2,
       Node.tag n1 = Node.tag n2 →
       Node.attributes n1 !! lit "id" = Node.attributes n2 !! lit "id" →
       Node.attributes n1 !! lit "class" = Node.attributes n2 !! lit "class" →
       Selectors.match_node sels n1 = Selectors.match_node sels n2).
Proof.
  split; [|split].
  - intros fuel h h' node selector res Hrun.
    assert (Hh : h' = h); [|by subst h'].
    unfold query_selector_all in Hrun.
    destruct (verify_node _ _ _ _) as [[u σ']|] eqn:Hv; [|done].
    apply verify_node_frame in Hv as [Hobj _]. by simplify_eq/=.
  - intros fuel node sels σ u σ' Hrun.
    by apply verify_node_frame in Hrun as [Hobj _].
  - intros [items] n1 n2 Htag Hid Hclass. unfold Selectors.match_node. simpl.
    induction items as [|sel items IH]; [done|]. simpl. rewrite IH. f_equal.
    unfold Selector.match_node, Selector.class_set.
    by rewrite Htag, Hid, Hclass.
Qed.

Lemma C9_query_never_mutates_witness :
  ∃ h' res,
    query_selector_all 2 example_heap 0 (lit "div#topDiv") = Some (h', res)
    ∧ h' = example_heap.
Proof.
  assert (Hrun : query_selector_all 2 example_heap 0 (lit "div#topDiv")
                 = Some (example_heap, [0%nat])) by (by vm_compute).
  exists example_heap, [0%nat]. split; [exact Hrun|].
  destruct C9_query_never_mutates as [Hframe _].
  apply (Hframe 2%nat example_heap example_heap 0%nat (lit "div#topDiv")
           [0%nat] Hrun).
Defined.

(** ** Worked examples *)

Example query_div_topDiv :
  query_selector_all 2 example_heap 0 (lit "div#topDiv")
    = Some (example_heap, [0%nat]).
Proof. by vm_compute. Qed.

Example query_p_note :
  query_selector_all 2 example_heap 0 (lit "p.note")
    = Some (example_heap, [1%nat]).
Proof. by vm_compute. Qed.

Example query_span_p :
  query_selector_all 2 example_heap 0 (lit "span, p")
    = Some (example_heap, [1; 2]%nat).
Proof. by vm_compute. Qed.

Example query_too_deep :
  query_selector_all 1 example_heap 0 (lit "span, p") = None.
Proof. by vm_compute. Qed.

Example multi_class :
  Selector.klass (Selector.from_str (lit ".a.b")) = {[ lit "a"; lit "b" ]}
  ∧ Selector.match_node (Selector.from_str (lit ".a.b"))
      (Node.mk (lit "p") {[ lit "class" := lit "a b c" ]} []) = true
  ∧ Selector.match_node (Selector.from_str (lit ".a.b"))
      (Node.mk (lit "p") {[ lit "class" := lit "a" ]} []) = false.
Proof. repeat split; by vm_compute. Qed.

(** * Further properties *)

(** ** The parser, run by run *)

Lemma join_nil_concat (ws : list str) : join [] ws = concat ws.
Proof.
  induction ws as [|w [|w' ws] IH]; [done|by simpl; rewrite app_nil_r|].
  by rewrite join_cons, IH.
Qed.

Lemma concat_iter (s : str) : concat (Selector.iter s) = s.
Proof. induction s as [|c s IH]; [done|]. simpl. by rewrite IH. Qed.

Lemma iter_app (s1 s2 : str) :
  Selector.iter (s1 ++ s2) = Selector.iter s1 ++ Selector.iter s2.
Proof. apply fmap_app. Qed.

Lemma update_by_mode_pending sel mode chars :
  (Selector.update_by_mode sel mode chars).2 = [].
Proof. destruct chars; [done|]. by destruct mode. Qed.

Lemma update_by_mode_tag sel mode chars :
  mode ≠ TAG →
  Selector.tag ((Selector.update_by_mode sel mode chars).1) = Selector.tag sel.
Proof. destruct chars; [done|]. by destruct mode. Qed.

(** Scanning a run only extends the pending characters. *)
Lemma foldl_run (r : str) :
  sep_free r → ∀ sel mode chars,
    foldl Selector.from_str_step (sel, mode, chars) (Selector.iter r)
      = (sel, mode, chars ++ Selector.iter r).
Proof.
  intros [Hd Hh]. induction r as [|c r IH]; intros sel mode chars.
  - by rewrite app_nil_r.
  - apply not_elem_of_cons in Hd as [Hd Hd'], Hh as [Hh Hh'].
    unfold Selector.iter. rewrite fmap_cons. cbn [foldl].
    rewrite from_str_step_other by done.
    fold (Selector.iter r). rewrite IH by done. by rewrite <- app_assoc.
Qed.

(** The state of the loop after a string followed by a separator. *)
Lemma foldl_then_dot (s : str) :
  foldl Selector.from_str_step (Selector.new, TAG, [])
    (Selector.iter (s ++ [DOT])) = (Selector.from_str s, CLASS, []).
Proof.
  rewrite iter_app, foldl_app. unfold Selector.from_str.
  destruct (foldl _ _ (Selector.iter s)) as [[sel mode] chars].
  cbn [Selector.iter fmap list_fmap foldl]. rewrite from_str_step_dot.
  by rewrite update_by_mode_pending.
Qed.

Lemma foldl_then_hash (s : str) :
  foldl Selector.from_str_step (Selector.new, TAG, [])
    (Selector.iter (s ++ [HASH])) = (Selector.from_str s, ID, []).
Proof.
  rewrite iter_app, foldl_app. unfold Selector.from_str.
  destruct (foldl _ _ (Selector.iter s)) as [[sel mode] chars].
  cbn [Selector.iter fmap list_fmap foldl]. rewrite from_str_step_hash.
  by rewrite update_by_mode_pending.
Qed.

Lemma iter_nil_inv (r : str) : Selector.iter r = [] → r = [].
Proof. by destruct r. Qed.

Lemma flush_run sel mode (r : str) :
  r ≠ [] →
  (Selector.update_by_mode sel mode (Selector.iter r)).1 =
    match mode with
    | ID => Selector.mk r (Selector.klass sel) (Selector.tag sel)
    | CLASS =>
        Selector.mk (Selector.id_ sel) (Selector.klass sel ∪ {[ r ]})
          (Selector.tag sel)
    | TAG => Selector.mk (Selector.id_ sel) (Selector.klass sel) r
    end.
Proof.
  intros Hr. unfold Selector.update_by_mode.
  destruct (Selector.iter r) as [|w ws] eqn:Hi; [by apply iter_nil_inv in Hi|].
  rewrite <- Hi, join_nil_concat, concat_iter. rewrite Hi. by destruct mode.
Qed.

Lemma from_str_run (s : str) :
  sep_free s → Selector.from_str s = Selector.mk [] ∅ s.
Proof.
  intros Hs.
  unfold Selector.from_str. rewrite foldl_run by done. rewrite app_nil_l.
  destruct (decide (s = [])) as [->|Hne]; [done|].
  by rewrite flush_run.
Qed.

(** X1.  A string with neither ['.'] nor ['#'] parses to a selector that
    constrains the tag only, the tag being the whole string, whitespace
    included. *)
Theorem X1_bare_run_is_tag (s : str) (Hs : sep_free s) :
  Selector.from_str s = Selector.mk [] ∅ s.
Proof.
  unfold Selector.from_str. rewrite foldl_run by done. rewrite app_nil_l.
  destruct s as [|c s]; [done|].
  by rewrite flush_run.
Qed.

Lemma X1_bare_run_is_tag_witness :
  Selector.from_str (lit "my tag") = Selector.mk [] ∅ (lit "my tag").
Proof.
  apply X1_bare_run_is_tag.
  split; apply (bool_decide_unpack _); by vm_compute.
Defined.

Lemma from_str_dot_run (s r : str) :
  sep_free r →
  Selector.from_str (s ++ DOT :: r) =
    if decide (r = []) then Selector.from_str s
    else Selector.mk (Selector.id_ (Selector.from_str s))
           (Selector.klass (Selector.from_str s) ∪ {[ r ]})
           (Selector.tag (Selector.from_str s)).
Proof.
  intros Hr. rewrite (cons_middle DOT), app_assoc.
  unfold Selector.from_str at 1.
  rewrite iter_app, foldl_app, foldl_then_dot, foldl_run by done.
  rewrite app_nil_l. destruct (decide (r = [])) as [->|Hne].
  - simpl. by destruct (Selector.from_str s).
  - by rewrite flush_run.
Qed.

Lemma from_str_hash_run (s r : str) :
  sep_free r →
  Selector.from_str (s ++ HASH :: r) =
    if decide (r = []) then Selector.from_str s
    else Selector.mk r (Selector.klass (Selector.from_str s))
           (Selector.tag (Selector.from_str s)).
Proof.
  intros Hr. rewrite (cons_middle HASH), app_assoc.
  unfold Selector.from_str at 1.
  rewrite iter_app, foldl_app, foldl_then_hash, foldl_run by done.
  rewrite app_nil_l. destruct (decide (r = [])) as [->|Hne].
  - simpl. by destruct (Selector.from_str s).
  - by rewrite flush_run.
Qed.

(** X2.  Whatever follows, the tag of the parsed selector is the run of
    characters before the first ['.'] or ['#']: once the parser has left
    the tag mode it never sets the tag again. *)
Theorem X2_tag_is_leading_run (s : str) :
  Selector.tag (Selector.from_str s) = tag_run s.
Proof.
  assert (Hkeep : ∀ s sel mode chars, mode ≠ TAG →
    Selector.tag ((Selector.update_by_mode
      (foldl Selector.from_str_step (sel, mode, chars) (Selector.iter s)).1.1
      (foldl Selector.from_str_step (sel, mode, chars) (Selector.iter s)).1.2
      (foldl Selector.from_str_step (sel, mode, chars) (Selector.iter s)).2).1)
    = Selector.tag sel).
  { clear s. induction s as [|c s IH]; intros sel mode chars Hm.
    - simpl. by apply update_by_mode_tag.
    - unfold Selector.iter. rewrite fmap_cons. cbn [foldl].
      fold (Selector.iter s).
      destruct (decide (c = DOT)) as [->|Hd];
        [|destruct (decide (c = HASH)) as [->|Hh]].
      + rewrite from_str_step_dot, IH by done. by apply update_by_mode_tag.
      + rewrite from_str_step_hash, IH by done. by apply update_by_mode_tag.
      + rewrite from_str_step_other by done. by apply IH. }
  assert (Hflush : ∀ chars : list str,
    Selector.tag ((Selector.update_by_mode Selector.new TAG chars).1)
    = concat chars).
  { intros [|w ws]; [done|]. unfold Selector.update_by_mode.
    cbn [length Nat.eqb fst Selector.tag]. apply join_nil_concat. }
  assert (Hrun : ∀ s chars,
    Selector.tag ((Selector.update_by_mode
      (foldl Selector.from_str_step (Selector.new, TAG, chars)
         (Selector.iter s)).1.1
      (foldl Selector.from_str_step (Selector.new, TAG, chars)
         (Selector.iter s)).1.2
      (foldl Selector.from_str_step (Selector.new, TAG, chars)
         (Selector.iter s)).2).1)
    = concat chars ++ tag_run s).
  { clear s. induction s as [|c s IH]; intros chars.
    - simpl. by rewrite app_nil_r.
    - unfold Selector.iter. rewrite fmap_cons. cbn [foldl].
      fold (Selector.iter s). cbn [tag_run].
      destruct (decide (c = DOT)) as [->|Hd];
        [|destruct (decide (c = HASH)) as [->|Hh]].
      + rewrite from_str_step_dot, Hkeep by done.
        by rewrite Hflush, app_nil_r.
      + rewrite from_str_step_hash, Hkeep by done.
        by rewrite Hflush, app_nil_r.
      + rewrite from_str_step_other, IH by done.
        apply N.eqb_neq in Hd, Hh. rewrite Hd, Hh. simpl.
        rewrite concat_app. simpl. by rewrite <- app_assoc. }
  specialize (Hrun s []). unfold Selector.from_str.
  destruct (foldl _ _ _) as [[sel mode] chars]. exact Hrun.
Qed.

(** X3.  Appending a class run [.r] to any selector string keeps the tag
    and the id and adds [r] to the classes; a dot with nothing after it
    changes nothing. *)
Theorem X3_appending_class_run (s r : str) (Hr : sep_free r) :
  (r ≠ [] →
     Selector.from_str (s ++ DOT :: r) =
       Selector.mk (Selector.id_ (Selector.from_str s))
         (Selector.klass (Selector.from_str s) ∪ {[ r ]})
         (Selector.tag (Selector.from_str s)))
  ∧ Selector.from_str (s ++ [DOT]) = Selector.from_str s.
Proof.
  split.
  - intros Hne. rewrite from_str_dot_run by done. by rewrite decide_False.
  - rewrite from_str_dot_run; [done|]. split; apply not_elem_of_nil.
Qed.

Lemma X3_appending_class_run_witness :
  Selector.from_str (lit "p#x" ++ DOT :: lit "note") =
    Selector.mk (lit "x") {[ lit "note" ]} (lit "p").
Proof.
  assert (Hr : sep_free (lit "note")).
  { split; apply (bool_decide_unpack _); by vm_compute. }
  destruct (X3_appending_class_run (lit "p#x") (lit "note") Hr) as [Happ _].
  rewrite Happ by done. by vm_compute.
Defined.

(** X4.  Appending an id run [#r] to any selector string keeps the tag and
    the classes and makes [r] the id, discarding an id given before: the
    last id wins.  A hash with nothing after it changes nothing. *)
Theorem X4_appending_id_run (s r : str) (Hr : sep_free r) :
  (r ≠ [] →
     Selector.from_str (s ++ HASH :: r) =
       Selector.mk r (Selector.klass (Selector.from_str s))
         (Selector.tag (Selector.from_str s)))
  ∧ Selector.from_str (s ++ [HASH]) = Selector.from_str s.
Proof.
  split.
  - intros Hne. rewrite from_str_hash_run by done. by rewrite decide_False.
  - rewrite from_str_hash_run; [done|]. split; apply not_elem_of_nil.
Qed.

Lemma X4_appending_id_run_witness :
  Selector.from_str (lit "p#old" ++ HASH :: lit "new") =
    Selector.mk (lit "new") ∅ (lit "p").
Proof.
  assert (Hr : sep_free (lit "new")).
  { split; apply (bool_decide_unpack _); by vm_compute. }
  destruct (X4_appending_id_run (lit "p#old") (lit "new") Hr) as [Happ _].
  rewrite Happ by done. by vm_compute.
Defined.

(** Every string is a run, or ends with a separator followed by a run. *)
Lemma last_run (s : str) :
  sep_free s
  ∨ ∃ s' r, sep_free r ∧ (s = s' ++ DOT :: r ∨ s = s' ++ HASH :: r).
Proof.
  induction s as [|c s [Hs|(s' & r & Hr & Hs)]].
  - left. split; apply not_elem_of_nil.
  - destruct (decide (c = DOT)) as [->|Hd];
      [|destruct (decide (c = HASH)) as [->|Hh]].
    + right. exists [], s. auto.
    + right. exists [], s. auto.
    + left. destruct Hs. split; by apply not_elem_of_cons.
  - right. exists (c :: s'), r. split; [done|].
    destruct Hs as [->| ->]; auto.
Qed.

(** The parser is determined by its behaviour on runs: a property of the
    parse that holds for a bare run and is kept when a class run or an id
    run is appended holds of every string. *)
Lemma from_str_run_ind (P : str → Selector.t → Prop) :
  (∀ r, sep_free r → P r (Selector.mk [] ∅ r)) →
  (∀ s r, sep_free r → P s (Selector.from_str s) →
     P (s ++ DOT :: r)
       (if decide (r = []) then Selector.from_str s
        else Selector.mk (Selector.id_ (Selector.from_str s))
               (Selector.klass (Selector.from_str s) ∪ {[ r ]})
               (Selector.tag (Selector.from_str s)))) →
  (∀ s r, sep_free r → P s (Selector.from_str s) →
     P (s ++ HASH :: r)
       (if decide (r = []) then Selector.from_str s
        else Selector.mk r (Selector.klass (Selector.from_str s))
               (Selector.tag (Selector.from_str s)))) →
  ∀ s, P s (Selector.from_str s).
Proof.
  intros Hrun Hdot Hhash s.
  cut (∀ n s, (length s ≤ n)%nat → P s (Selector.from_str s)); [by eauto|].
  clear s. induction n as [|n IH]; intros s Hlen.
  - destruct s; [|simpl in Hlen; lia].
    apply (Hrun []). split; apply not_elem_of_nil.
  - destruct (last_run s) as [Hs|(s' & r & Hr & [-> | ->])].
    + rewrite from_str_run by done. by apply Hrun.
    + rewrite from_str_dot_run by done. apply Hdot; [done|].
      apply IH. rewrite length_app in Hlen. simpl in Hlen. lia.
    + rewrite from_str_hash_run by done. apply Hhash; [done|].
      apply IH. rewrite length_app in Hlen. simpl in Hlen. lia.
Qed.

(** X5.  Every field of a parsed selector is free of ['.'] and ['#'], and
    no class is the empty string: the separators never reach a field. *)
Theorem X5_fields_hold_no_separator (s : str) :
  sep_free (Selector.tag (Selector.from_str s))
  ∧ sep_free (Selector.id_ (Selector.from_str s))
  ∧ (∀ k, k ∈ Selector.klass (Selector.from_str s) → sep_free k ∧ k ≠ []).
Proof.
  assert (Hnil : sep_free []) by (split; apply not_elem_of_nil).
  apply (from_str_run_ind (λ _ sel,
    sep_free (Selector.tag sel) ∧ sep_free (Selector.id_ sel)
    ∧ ∀ k, k ∈ Selector.klass sel → sep_free k ∧ k ≠ [])).
  - intros r Hr. simpl. split; [done|]. split; [done|].
    intros k Hk. by apply not_elem_of_empty in Hk.
  - intros s' r Hr (Ht & Hi & Hk). destruct (decide (r = [])); [done|].
    simpl. split; [done|]. split; [done|].
    intros k [Hin|Hin%elem_of_singleton]%elem_of_union; [by apply Hk|].
    by subst k.
  - intros s' r Hr (Ht & Hi & Hk). by destruct (decide (r = [])).
Qed.

(** X6.  A class run and an id run appended to a selector string may come
    in either order, two class runs may be exchanged, and a class run
    written twice counts once. *)
Theorem X6_runs_commute (s c i : str) (Hc : sep_free c) (Hi : sep_free i) :
  Selector.from_str (s ++ DOT :: c ++ HASH :: i)
    = Selector.from_str (s ++ HASH :: i ++ DOT :: c)
  ∧ Selector.from_str (s ++ DOT :: c ++ DOT :: i)
    = Selector.from_str (s ++ DOT :: i ++ DOT :: c)
  ∧ Selector.from_str (s ++ DOT :: c ++ DOT :: c)
    = Selector.from_str (s ++ DOT :: c).
Proof.
  assert (Hl : ∀ (x y : char) (u v : str),
            s ++ x :: u ++ y :: v = (s ++ x :: u) ++ y :: v).
  { intros. by rewrite <- app_assoc. }
  rewrite !Hl. repeat split.
  - rewrite !from_str_hash_run, !from_str_dot_run, !from_str_hash_run by done.
    by destruct (decide (c = [])), (decide (i = [])).
  - rewrite !from_str_dot_run by done.
    destruct (decide (c = [])), (decide (i = [])); simpl; try done.
    f_equal. set_solver.
  - rewrite !from_str_dot_run by done.
    destruct (decide (c = [])); simpl; [done|]. f_equal. set_solver.
Qed.

Lemma X6_runs_commute_witness :
  Selector.from_str (lit "div" ++ DOT :: lit "container" ++ HASH :: lit "top")
    = Selector.from_str
        (lit "div" ++ HASH :: lit "top" ++ DOT :: lit "container").
Proof.
  assert (Hc : sep_free (lit "container")).
  { split; apply (bool_decide_unpack _); by vm_compute. }
  assert (Hi : sep_free (lit "top")).
  { split; apply (bool_decide_unpack _); by vm_compute. }
  apply (X6_runs_commute (lit "div") (lit "container") (lit "top") Hc Hi).
Defined.

(** ** Matching one node, further *)

Lemma bool_eq_iff (b1 b2 : bool) : (b1 = true ↔ b2 = true) → b1 = b2.
Proof. destruct b1, b2; intuition congruence. Qed.

(** X7.  Appending a class run [.c] to a selector string narrows it by
    exactly that class: the longer selector matches a node when the shorter
    one does and [c] is among the class tokens of the node. *)
Theorem X7_class_run_narrows (s c : str) (node : Node.t)
    (Hc : sep_free c) (Hne : c ≠ []) :
  Selector.match_node (Selector.from_str (s ++ DOT :: c)) node =
    Selector.match_node (Selector.from_str s) node
    && bool_decide (c ∈ Selector.class_set node).
Proof.
  rewrite from_str_dot_run, decide_False by done.
  apply bool_eq_iff.
  rewrite andb_true_iff, bool_decide_eq_true, !match_node_true. simpl.
  set (K := Selector.klass (Selector.from_str s)).
  set (S := Selector.class_set node).
  assert (Hsub : K ∪ {[ c ]} = ∅ ∨ K ∪ {[ c ]} ⊆ S ↔ (K = ∅ ∨ K ⊆ S) ∧ c ∈ S)
    by set_solver.
  rewrite Hsub. tauto.
Qed.

Lemma X7_class_run_narrows_witness :
  Selector.match_node (Selector.from_str (lit "div" ++ DOT :: lit "b"))
    spaced_node = true.
Proof.
  assert (Hc : sep_free (lit "b")).
  { split; apply (bool_decide_unpack _); by vm_compute. }
  assert (Hne : lit "b" ≠ []) by done.
  rewrite (X7_class_run_narrows (lit "div") (lit "b") spaced_node Hc Hne).
  by vm_compute.
Defined.

(** X8.  A node that has neither an [id] nor a [class] attribute is matched
    only by selectors that ask for no id and no class, and then on the tag
    alone. *)
Theorem X8_node_without_id_and_class (sel : Selector.t) (node : Node.t)
    (Hid : Node.attributes node !! lit "id" = None)
    (Hclass : Node.attributes node !! lit "class" = None) :
  Selector.match_node sel node = true ↔
    (Selector.tag sel = [] ∨ Selector.tag sel = Node.tag node)
    ∧ Selector.id_ sel = []
    ∧ Selector.klass sel = ∅.
Proof.
  assert (Hset : Selector.class_set node = ∅).
  { unfold Selector.class_set. rewrite Hclass. by vm_compute. }
  rewrite match_node_true, Hid, Hset.
  assert (Hk : Selector.klass sel = ∅ ∨ Selector.klass sel ⊆ ∅
               ↔ Selector.klass sel = ∅) by set_solver.
  rewrite Hk. naive_solver.
Qed.

Lemma X8_node_without_id_and_class_witness :
  Selector.match_node (Selector.from_str (lit "span#x"))
    (Node.mk (lit "span") ∅ []) = false.
Proof.
  apply not_true_is_false. intros Hm.
  apply (X8_node_without_id_and_class _ (Node.mk (lit "span") ∅ [])) in Hm
    as (_ & Hid & _); [|by vm_compute..].
  by vm_compute in Hid.
Defined.

Lemma split_by_free (p : char → bool) (w : str) :
  Forall (λ c, p c = false) w → split_by p w = [w].
Proof.
  induction 1 as [|c w Hc _ IH]; [done|]. simpl in *. by rewrite Hc, IH.
Qed.

Lemma split_by_app_sep (p : char → bool) (s1 s2 : str) (c : char) :
  p c = true →
  split_by p (s1 ++ c :: s2) = split_by p s1 ++ split_by p s2.
Proof.
  intros Hc. induction s1 as [|x s1 IH]; simpl.
  - by rewrite Hc.
  - rewrite IH. destruct (p x); [done|].
    by destruct (split_by_cons p s1) as (w & ws & ->).
Qed.

Lemma split_by_join (p : char → bool) (sep : char) (ws : list str) :
  p sep = true → ws ≠ [] →
  Forall (Forall (λ c, p c = false)) ws →
  split_by p (join [sep] ws) = ws.
Proof.
  intros Hsep Hne Hws. induction Hws as [|w ws Hw Hws IH]; [done|].
  destruct ws as [|w' ws]; [by apply split_by_free|].
  rewrite join_cons.
  change (w ++ [sep] ++ join [sep] (w' :: ws))
    with (w ++ sep :: join [sep] (w' :: ws)).
  rewrite split_by_app_sep by done.
  rewrite split_by_free, IH by done. done.
Qed.

Lemma strip_no_space (w : str) :
  Forall (λ c, isspace c = false) w → strip w = w.
Proof.
  assert (Hl : ∀ v : str, Forall (λ c, isspace c = false) v → lstrip v = v).
  { intros v Hv. destruct Hv as [|c v Hc _]; [done|]. simpl in *. by rewrite Hc. }
  intros Hw. unfold strip, rstrip. rewrite (Hl w) by done.
  rewrite Hl by (by apply Forall_reverse). apply reverse_involutive.
Qed.

(** X9.  The class tokens of a node whose class attribute is a list of
    tokens joined by single spaces (tokens that are non-empty and hold no
    whitespace) are exactly these tokens, whatever their order and however
    often one is repeated. *)
Theorem X9_class_tokens_of_joined (node : Node.t) (toks : list str)
    (Htoks : Forall (λ w, w ≠ [] ∧ Forall (λ c, isspace c = false) w) toks)
    (Hclass : Node.attributes node !! lit "class" = Some (join [SPACE] toks)) :
  Selector.class_set node = list_to_set toks.
Proof.
  unfold Selector.class_set. rewrite Hclass. simpl default.
  destruct (decide (toks = [])) as [->|Hne]; [by vm_compute|].
  unfold split. rewrite split_by_join; [|done..|].
  - f_equal. rewrite (proj1 (Forall_fmap_ext strip id toks)).
    + rewrite list_fmap_id. apply filter_all.
      eapply Forall_impl; [exact Htoks|]. intros [|??] [? _]; done.
    + eapply Forall_impl; [exact Htoks|]. intros w [_ Hw].
      by apply strip_no_space.
  - eapply Forall_impl; [exact Htoks|]. intros w [_ Hw].
    eapply Forall_impl; [exact Hw|]. cbv beta. intros c Hc.
    destruct (N.eqb_spec SPACE c) as [<-|]; [by vm_compute in Hc|done].
Qed.

Lemma X9_class_tokens_of_joined_witness :
  Selector.class_set
    (Node.mk (lit "p") {[ lit "class" := lit "b a b" ]} [])
  = {[ lit "a"; lit "b" ]}.
Proof.
  assert (Htoks : Forall (λ w, w ≠ [] ∧ Forall (λ c, isspace c = false) w)
            [lit "b"; lit "a"; lit "b"]).
  { repeat constructor; done. }
  rewrite (X9_class_tokens_of_joined
             (Node.mk (lit "p") {[ lit "class" := lit "b a b" ]} [])
             [lit "b"; lit "a"; lit "b"] Htoks) by (by vm_compute).
  by vm_compute.
Defined.

(** ** Selector lists, further *)

Lemma Selectors_match_app (l1 l2 : list Selector.t) (node : Node.t) :
  Selectors.match_node (Selectors.mk (l1 ++ l2)) node =
    Selectors.match_node (Selectors.mk l1) node
    || Selectors.match_node (Selectors.mk l2) node.
Proof. unfold Selectors.match_node. simpl. apply existsb_app. Qed.

Lemma Selectors_from_str_comma (s1 s2 : str) :
  Selectors.items (Selectors.from_str (s1 ++ COMMA :: s2)) =
    Selectors.items (Selectors.from_str s1)
    ++ Selectors.items (Selectors.from_str s2).
Proof.
  unfold Selectors.from_str, split. simpl.
  rewrite split_by_app_sep by apply N.eqb_refl. by rewrite !fmap_app.
Qed.

(** X10.  A comma composes selector lists: the list parsed from
    [s1 , s2] is the list of [s1] followed by the list of [s2], and it
    matches a node when the list of [s1] or the list of [s2] does. *)
Theorem X10_comma_composes (s1 s2 : str) (node : Node.t) :
  Selectors.items (Selectors.from_str (s1 ++ COMMA :: s2)) =
    Selectors.items (Selectors.from_str s1)
    ++ Selectors.items (Selectors.from_str s2)
  ∧ Selectors.match_node (Selectors.from_str (s1 ++ COMMA :: s2)) node =
      Selectors.match_node (Selectors.from_str s1) node
      || Selectors.match_node (Selectors.from_str s2) node.
Proof.
  split; [apply Selectors_from_str_comma|].
  destruct (Selectors.from_str (s1 ++ COMMA :: s2)) as [l] eqn:Hl.
  pose proof (Selectors_from_str_comma s1 s2) as Happ.
  rewrite Hl in Happ. simpl in Happ. rewrite Happ, Selectors_match_app.
  reflexivity.
Qed.

Lemma universal_matches (node : Node.t) :
  Selector.match_node (Selector.mk [] ∅ []) node = true.
Proof. apply match_node_true. simpl. tauto. Qed.

Lemma blank_piece_matches (s : str) (node : Node.t) :
  Exists (Forall (λ c, isspace c = true)) (split COMMA s) →
  Selectors.match_node (Selectors.from_str s) node = true.
Proof.
  intros (w & Hin & Hw)%Exists_exists.
  unfold Selectors.match_node, Selectors.from_str. simpl.
  apply existsb_exists. exists (Selector.mk [] ∅ []).
  split; [|apply universal_matches].
  apply list_elem_of_In, list_elem_of_fmap. exists (strip w).
  split; [by rewrite strip_spaces|]. by apply list_elem_of_fmap_2.
Qed.

(** X11.  A selector list with a blank piece (nothing, or whitespace only,
    between two commas, before the first or after the last) matches every
    node, so the query returns the whole tree in pre-order, whatever the
    other pieces ask for. *)
Theorem X11_blank_piece_matches_all (s : str)
    (Hblank : Exists (Forall (λ c, isspace c = true)) (split COMMA s)) :
  (∀ node, Selectors.match_node (Selectors.from_str s) node = true)
  ∧ (∀ (h : gmap addr Node.t) (t : tree) (fuel : nat),
       is_tree h t → (height t ≤ fuel)%nat →
       query_selector_all fuel h (root t) s = Some (h, preorder t)).
Proof.
  split; [intros node; by apply blank_piece_matches|].
  intros h t fuel [Hsh _] Hfuel.
  rewrite query_selector_all_shaped by done. do 2 f_equal.
  apply filter_all, Forall_forall. intros a Ha.
  apply shaped_lookup with (a := a) in Hsh as [n Hn]; [|done].
  unfold matches. rewrite Hn. by rewrite blank_piece_matches.
Qed.

Lemma X11_blank_piece_matches_all_witness :
  query_selector_all 2 example_heap 0 (lit "h1, ")
    = Some (example_heap, [0; 1; 2]%nat).
Proof.
  assert (Hblank : Exists (Forall (λ c, isspace c = true))
                     (split COMMA (lit "h1, "))).
  { apply Exists_cons_tl, Exists_cons_hd. by repeat constructor. }
  assert (Hfuel : (height example_tree ≤ 2)%nat) by (vm_compute; lia).
  destruct (X11_blank_piece_matches_all (lit "h1, ") Hblank) as [_ Hq].
  exact (Hq example_heap example_tree 2%nat example_is_tree Hfuel).
Defined.

Lemma lstrip_pad (l w : str) :
  Forall (λ c, isspace c = true) l → lstrip (l ++ w) = lstrip w.
Proof. induction 1 as [|c l Hc _ IH]; [done|]. simpl. by rewrite Hc. Qed.

Lemma lstrip_app (w r : str) :
  lstrip (w ++ r) =
    match lstrip w with [] => lstrip r | _ :: _ => lstrip w ++ r end.
Proof.
  induction w as [|c w IH]; [done|]. simpl. by destruct (isspace c).
Qed.

Lemma strip_pad_l (l w : str) :
  Forall (λ c, isspace c = true) l → strip (l ++ w) = strip w.
Proof. intros Hl. unfold strip. by rewrite lstrip_pad. Qed.

Lemma strip_pad_r (w r : str) :
  Forall (λ c, isspace c = true) r → strip (w ++ r) = strip w.
Proof.
  intros Hr. unfold strip. rewrite lstrip_app.
  destruct (lstrip w) as [|c v] eqn:Hw.
  - by rewrite lstrip_spaces.
  - unfold rstrip. rewrite reverse_app, lstrip_pad; [done|].
    by apply Forall_reverse.
Qed.

Lemma split_by_pad_l (p : char → bool) (l s : str) :
  Forall (λ c, p c = false) l →
  ∃ w ws, split_by p s = w :: ws ∧ split_by p (l ++ s) = (l ++ w) :: ws.
Proof.
  intros Hl. destruct (split_by_cons p s) as (w & ws & Hs).
  exists w, ws. split; [done|].
  induction Hl as [|c l Hc _ IH]; [done|]. simpl in *. by rewrite Hc, IH.
Qed.

Lemma split_by_pad_r (p : char → bool) (s r : str) :
  Forall (λ c, p c = false) r →
  ∃ ws w, split_by p s = ws ++ [w] ∧ split_by p (s ++ r) = ws ++ [w ++ r].
Proof.
  intros Hr. induction s as [|c s (ws & w & Hs & Hsr)].
  - exists [], []. split; [done|]. by apply split_by_free.
  - simpl. rewrite Hs, Hsr. destruct (p c).
    + by exists ([] :: ws), w.
    + destruct ws as [|x xs]; [by exists [], (c :: w)|].
      by exists ((c :: x) :: xs), w.
Qed.

Lemma space_not_comma (l : str) :
  Forall (λ c, isspace c = true) l → Forall (λ c, N.eqb COMMA c = false) l.
Proof.
  intros Hl. eapply Forall_impl; [exact Hl|]. cbv beta. intros c Hc.
  destruct (N.eqb_spec COMMA c) as [<-|]; [by vm_compute in Hc|done].
Qed.

(** X12.  Whitespace before and after a selector list is ignored: the
    string parses to the same list with or without it. *)
Theorem X12_outer_whitespace_ignored (l s r : str)
    (Hl : Forall (λ c, isspace c = true) l)
    (Hr : Forall (λ c, isspace c = true) r) :
  Selectors.from_str (l ++ s ++ r) = Selectors.from_str s.
Proof.
  unfold Selectors.from_str, split. do 2 f_equal.
  destruct (split_by_pad_l (N.eqb COMMA) l (s ++ r)) as (w & ws & Hs & ->);
    [by apply space_not_comma|].
  destruct (split_by_pad_r (N.eqb COMMA) s r) as (ws' & w' & Hs' & Hsr);
    [by apply space_not_comma|].
  rewrite Hs', fmap_cons, strip_pad_l, <- fmap_cons, <- Hs, Hsr by done.
  rewrite !fmap_app. simpl. by rewrite strip_pad_r.
Qed.

Lemma X12_outer_whitespace_ignored_witness :
  Selectors.from_str (lit "  " ++ lit "div, p" ++ [9; 10])
    = Selectors.from_str (lit "div, p").
Proof.
  apply X12_outer_whitespace_ignored; by repeat constructor.
Defined.

(** ** The walk, further *)

Lemma matches_comma h (s1 s2 : str) (a : addr) :
  matches h (Selectors.from_str (s1 ++ COMMA :: s2)) a =
    matches h (Selectors.from_str s1) a || matches h (Selectors.from_str s2) a.
Proof.
  unfold matches. destruct (h !! a) as [n|]; [|done].
  destruct (Selectors.from_str (s1 ++ COMMA :: s2)) as [l] eqn:Hl.
  pose proof (Selectors_from_str_comma s1 s2) as Happ.
  rewrite Hl in Happ. simpl in Happ. by rewrite Happ, Selectors_match_app.
Qed.

Lemma filter_sublist_impl {A} (P Q : A → Prop)
    `{∀ x, Decision (P x)} `{∀ x, Decision (Q x)} (l : list A) :
  (∀ x, P x → Q x) → sublist (filter P l) (filter Q l).
Proof.
  intros HPQ. induction l as [|x l IH]; [done|].
  rewrite !filter_cons. destruct (decide (P x)) as [HP|HP].
  - rewrite decide_True by auto. by constructor.
  - destruct (decide (Q x)); [by constructor|done].
Qed.

(** X13.  On a tree, the query for [s1 , s2] returns the nodes returned
    for [s1] or for [s2]: each of the two results is a sublist of it, it
    has nothing else, and a node matched by both comes once. *)
Theorem X13_comma_query_is_union
    (h : gmap addr Node.t) (t : tree) (s1 s2 : str) (fuel : nat)
    (Htree : is_tree h t) (Hfuel : (height t ≤ fuel)%nat) :
  ∃ r1 r2 r,
    query_selector_all fuel h (root t) s1 = Some (h, r1)
    ∧ query_selector_all fuel h (root t) s2 = Some (h, r2)
    ∧ query_selector_all fuel h (root t) (s1 ++ COMMA :: s2) = Some (h, r)
    ∧ (∀ a, a ∈ r ↔ a ∈ r1 ∨ a ∈ r2)
    ∧ sublist r1 r ∧ sublist r2 r ∧ NoDup r.
Proof.
  destruct Htree as [Hsh Hnd].
  eexists _, _, _. rewrite !query_selector_all_shaped by done.
  split; [done|]. split; [done|]. split; [done|].
  assert (Hor : ∀ a, matches h (Selectors.from_str (s1 ++ COMMA :: s2)) a
                     ↔ matches h (Selectors.from_str s1) a
                       ∨ matches h (Selectors.from_str s2) a).
  { intros a. by rewrite matches_comma, orb_True. }
  repeat split.
  - rewrite !list_elem_of_filter, Hor. tauto.
  - rewrite !list_elem_of_filter, Hor. tauto.
  - apply filter_sublist_impl. intros a Ha. apply Hor. by left.
  - apply filter_sublist_impl. intros a Ha. apply Hor. by right.
  - by apply NoDup_filter.
Qed.

Lemma X13_comma_query_is_union_witness :
  ∃ r, query_selector_all 2 example_heap 0 (lit "span" ++ COMMA :: lit " p")
         = Some (example_heap, r)
       ∧ r = [1; 2]%nat.
Proof.
  assert (Hfuel : (height example_tree ≤ 2)%nat) by (vm_compute; lia).
  destruct (X13_comma_query_is_union example_heap example_tree
              (lit "span") (lit " p") 2 example_is_tree Hfuel)
    as (r1 & r2 & r & _ & _ & Hq & _).
  exists r. split; [exact Hq|].
  assert (Hrun : query_selector_all 2 example_heap 0
                   (lit "span" ++ COMMA :: lit " p")
                 = Some (example_heap, [1; 2]%nat)) by (by vm_compute).
  assert (Heq : Some (example_heap, r) = Some (example_heap, [1; 2]%nat))
    by (rewrite <- Hq; exact Hrun).
  by injection Heq.
Defined.

(** X14.  The walk does not remember what it has visited: on a store whose
    node objects are shared between parents, a matching node is returned
    once for each way to reach it. *)
Theorem X14_shared_node_once_per_path
    (h : gmap addr Node.t) (t : tree) (s : str) (fuel : nat)
    (Hshape : shaped h t) (Hfuel : (height t ≤ fuel)%nat) :
  ∃ res,
    query_selector_all fuel h (root t) s = Some (h, res)
    ∧ res = filter (λ a, matches h (Selectors.from_str s) a) (preorder t)
    ∧ ∀ a, matches h (Selectors.from_str s) a = true →
           length (filter (λ b, b = a) res)
           = length (filter (λ b, b = a) (preorder t)).
Proof.
  eexists. split; [by apply query_selector_all_shaped|]. split; [done|].
  intros a Ha. f_equal. rewrite list_filter_filter.
  apply list_filter_iff. intros b. split; [tauto|].
  intros ->. split; [done|]. by apply Is_true_true.
Qed.

Lemma X14_shared_node_once_per_path_witness :
  query_selector_all 2 shared_heap 0 (lit "p")
    = Some (shared_heap, [1; 1]%nat).
Proof.
  assert (Hshape : shaped shared_heap shared_tree).
  { repeat (econstructor; try by vm_compute). }
  assert (Hfuel : (height shared_tree ≤ 2)%nat) by (vm_compute; lia).
  destruct (X14_shared_node_once_per_path shared_heap shared_tree (lit "p") 2
              Hshape Hfuel) as (res & Hq & Hres & _).
  change (root shared_tree) with 0%nat in Hq.
  rewrite Hq, Hres. by vm_compute.
Defined.

Lemma reaches_cycle_step h a :
  reaches_cycle h a → ∃ b, edge h a b ∧ reaches_cycle h b.
Proof.
  intros (c & Hac & Hcc). destruct Hac as [a|a b c Hab Hbc].
  - inversion Hcc as [? b Hab|? b ? Hab Hba]; subst.
    + exists a. split; [done|]. exists a. split; [done|]. by apply tc_once.
    + exists b. split; [done|]. exists a. split; [by apply tc_rtc|done].
  - exists b. split; [done|]. by exists c.
Qed.

Section walk_more.
Variable sels : Selectors.t.

Lemma for_each_stuck h (b : addr) (body : addr → M unit) :
  (∀ σ, objects σ = h → body b σ = None) →
  (∀ x σ u σ', body x σ = Some (u, σ') → objects σ' = objects σ) →
  ∀ xs σ, b ∈ xs → objects σ = h → for_each xs body σ = None.
Proof.
  intros Hb Hframe. induction xs as [|x xs IH]; intros σ Hin Hσ.
  - by apply not_elem_of_nil in Hin.
  - rewrite for_each_cons.
    destruct (body x σ) as [[u σ']|] eqn:Hx; [|done].
    apply elem_of_cons in Hin as [->|Hin]; [by rewrite Hb in Hx|].
    apply IH; [done|]. apply Hframe in Hx. congruence.
Qed.

Lemma verify_node_cycle h fuel :
  ∀ a σ, reaches_cycle h a → objects σ = h →
         verify_node fuel a sels σ = None.
Proof.
  induction fuel as [|fuel IH]; intros a σ Hcyc Hσ; [done|].
  destruct (reaches_cycle_step _ _ Hcyc) as (b & (n & Hn & Hb) & Hcyc').
  rewrite (verify_node_S _ _ _ _ n) by (by rewrite Hσ).
  apply for_each_stuck with (h := h) (b := b).
  - intros σ' Hσ'. by apply IH.
  - intros x σ1 u σ2 Hrun. by apply verify_node_frame in Hrun as [? _].
  - done.
  - by destruct (Selectors.match_node sels n).
Qed.

Lemma for_each_mono (body1 body2 : addr → M unit) :
  (∀ x σ r, body1 x σ = Some r → body2 x σ = Some r) →
  ∀ xs σ r, for_each xs body1 σ = Some r → for_each xs body2 σ = Some r.
Proof.
  intros Hbody. induction xs as [|x xs IH]; intros σ r; [done|].
  rewrite !for_each_cons.
  destruct (body1 x σ) as [[u σ']|] eqn:Hx; [|done].
  rewrite (Hbody _ _ _ Hx). apply IH.
Qed.

Lemma verify_node_mono fuel :
  ∀ fuel' a σ r, (fuel ≤ fuel')%nat →
    verify_node fuel a sels σ = Some r → verify_node fuel' a sels σ = Some r.
Proof.
  induction fuel as [|fuel IH]; intros fuel' a σ r Hle Hrun; [done|].
  destruct fuel' as [|fuel']; [lia|].
  destruct (verify_node_Some _ _ _ _ _ Hrun) as (? & n & _ & Hn).
  rewrite (verify_node_S fuel _ _ _ n) in Hrun by done.
  rewrite (verify_node_S fuel' _ _ _ n) by done.
  revert Hrun. apply for_each_mono. intros c σ' r'. apply IH. lia.
Qed.

(** A run that returns appends the same nodes whatever the list held. *)
Lemma verify_node_appends fuel :
  ∀ a σ u σ', verify_node fuel a sels σ = Some (u, σ') →
    ∃ l, ∀ m, verify_node fuel a sels (Store (objects σ) m)
              = Some (tt, Store (objects σ) (m ++ l)).
Proof.
  induction fuel as [|fuel IH]; intros a σ u σ' Hrun; [done|].
  destruct (verify_node_Some _ _ _ _ _ Hrun) as (? & n & _ & Hn).
  rewrite (verify_node_S _ _ _ _ n) in Hrun by done.
  set (h := objects σ) in *.
  set (l0 := if Selectors.match_node sels n then [a] else []).
  assert (Hfirst : ∀ m,
    (if Selectors.match_node sels n then extend (Store h m) [a]
     else Store h m) = Store h (m ++ l0)).
  { intros m. subst l0. destruct (Selectors.match_node sels n); [done|].
    by rewrite app_nil_r. }
  assert (Hrest : ∀ cs σ1 u1 σ1', objects σ1 = h →
    for_each cs (λ child, verify_node fuel child sels) σ1 = Some (u1, σ1') →
    ∃ l, ∀ m, for_each cs (λ child, verify_node fuel child sels) (Store h m)
              = Some (tt, Store h (m ++ l))).
  { induction cs as [|c cs IHcs]; intros σ1 u1 σ1' Hσ1 Hcs.
    - exists []. intros m. by rewrite app_nil_r.
    - rewrite for_each_cons in Hcs.
      destruct (verify_node fuel c sels σ1) as [[u2 σ2]|] eqn:Hc; [|done].
      pose proof Hc as Hc'. apply verify_node_frame in Hc' as [Hσ2 _].
      apply IH in Hc as [l2 Hl2]. rewrite Hσ1 in Hl2.
      apply IHcs in Hcs as [l3 Hl3]; [|congruence].
      exists (l2 ++ l3). intros m.
      by rewrite for_each_cons, Hl2, Hl3, app_assoc. }
  apply Hrest in Hrun as [l Hl];
    [|by destruct (Selectors.match_node sels n)].
  exists (l0 ++ l). intros m.
  rewrite (verify_node_S _ _ _ _ n) by done. simpl objects.
  rewrite Hfirst, Hl. by rewrite app_assoc.
Qed.

End walk_more.

(** X15.  On a store with a cycle among the nodes reachable from the
    root, the query does not return, however deep the recursion may go:
    nothing stops the walk from entering the cycle again. *)
Theorem X15_cycle_never_returns
    (h : gmap addr Node.t) (node : addr) (Hcycle : reaches_cycle h node) :
  ∀ fuel selector, query_selector_all fuel h node selector = None.
Proof.
  intros fuel selector. unfold query_selector_all.
  by rewrite (verify_node_cycle _ h).
Qed.

Lemma X15_cycle_never_returns_witness :
  query_selector_all 1000 looped_heap 0 (lit "p") = None.
Proof.
  apply X15_cycle_never_returns. exists 0%nat. split; [apply rtc_refl|].
  apply tc_l with 1%nat; [|apply tc_once].
  - eexists. split; [by vm_compute|]. simpl. left.
  - eexists. split; [by vm_compute|]. simpl. left.
Defined.

(** X16.  The depth allowed to the recursion does not change the answer:
    a query that returns within some depth returns the same store and the
    same list within any larger depth. *)
Theorem X16_result_independent_of_depth
    (fuel fuel' : nat) (h : gmap addr Node.t) (node : addr) (selector : str)
    (r : gmap addr Node.t * list addr)
    (Hle : (fuel ≤ fuel')%nat)
    (Hrun : query_selector_all fuel h node selector = Some r) :
  query_selector_all fuel' h node selector = Some r.
Proof.
  unfold query_selector_all in *.
  destruct (verify_node fuel _ _ _) as [[u σ]|] eqn:Hv; [|done].
  by rewrite (verify_node_mono _ fuel _ _ _ _ Hle Hv).
Qed.

Lemma X16_result_independent_of_depth_witness :
  query_selector_all 50 example_heap 0 (lit ".note")
    = Some (example_heap, [1%nat]).
Proof.
  assert (Hle : (2 ≤ 50)%nat) by lia.
  assert (Hrun : query_selector_all 2 example_heap 0 (lit ".note")
                 = Some (example_heap, [1%nat])) by (by vm_compute).
  exact (X16_result_independent_of_depth 2 50 example_heap 0 (lit ".note")
           _ Hle Hrun).
Defined.

Lemma query_appends fuel h h' node selector res :
  query_selector_all fuel h node selector = Some (h', res) →
  ∀ m, verify_node fuel node (Selectors.from_str selector) (Store h m)
       = Some (tt, Store h (m ++ res)).
Proof.
  intros Hrun. unfold query_selector_all in Hrun.
  destruct (verify_node fuel _ _ _) as [[u σ]|] eqn:Hv; [|done].
  destruct (verify_node_appends _ _ _ _ _ _ Hv) as [l Hl]. simpl in Hl.
  rewrite (Hl []) in Hv. simplify_eq/=. exact Hl.
Qed.

(** X17.  [verify_node] appends to the list it is given and keeps what the
    list held: run on a list [m], it leaves [m] followed by what the query
    returns for the same node and selector. *)
Theorem X17_verify_node_appends
    (fuel : nat) (h h' : gmap addr Node.t) (node : addr) (selector : str)
    (res : list addr)
    (Hrun : query_selector_all fuel h node selector = Some (h', res)) :
  ∀ m, verify_node fuel node (Selectors.from_str selector) (Store h m)
       = Some (tt, Store h (m ++ res)).
Proof.
  unfold query_selector_all in Hrun.
  destruct (verify_node fuel _ _ _) as [[u σ]|] eqn:Hv; [|done].
  destruct (verify_node_appends _ _ _ _ _ _ Hv) as [l Hl]. simpl in Hl.
  rewrite (Hl []) in Hv. simplify_eq/=. exact Hl.
Qed.

Lemma X17_verify_node_appends_witness :
  verify_node 2 0 (Selectors.from_str (lit "p")) (Store example_heap [7%nat])
    = Some (tt, Store example_heap [7; 1]%nat).
Proof.
  assert (Hrun : query_selector_all 2 example_heap 0 (lit "p")
                 = Some (example_heap, [1%nat])) by (by vm_compute).
  exact (X17_verify_node_appends 2 example_heap example_heap 0 (lit "p")
           [1%nat] Hrun [7%nat]).
Defined.

(** X18.  The result for a node is built from the results for its
    children: the node itself if it matches, then what the query returns
    for each child, in the order of the children. *)
Theorem X18_query_from_children
    (fuel : nat) (h : gmap addr Node.t) (node : addr) (selector : str)
    (n : Node.t) (rs : list (list addr))
    (Hnode : h !! node = Some n)
    (Hkids : Forall2 (λ child r,
               query_selector_all fuel h child selector = Some (h, r))
               (Node.children n) rs) :
  query_selector_all (S fuel) h node selector =
    Some (h, (if Selectors.match_node (Selectors.from_str selector) n
              then [node] else []) ++ concat rs).
Proof.
  unfold query_selector_all at 1.
  rewrite (verify_node_S _ _ _ _ n) by done.
  set (l0 := if Selectors.match_node (Selectors.from_str selector) n
            then [node] else []).
  assert (Hfirst :
    (if Selectors.match_node (Selectors.from_str selector) n
     then extend (Store h []) [node] else Store h []) = Store h l0).
  { subst l0. by destruct (Selectors.match_node _ n). }
  rewrite Hfirst. clear Hfirst. generalize l0. clear l0.
  induction Hkids as [|c r cs rs Hc _ IH]; intros m.
  - simpl. by rewrite app_nil_r.
  - rewrite for_each_cons, (query_appends _ _ _ _ _ _ Hc m).
    simpl concat. rewrite app_assoc. apply IH.
Qed.

Lemma X18_query_from_children_witness :
  query_selector_all 2 example_heap 0 (lit "div, span")
    = Some (example_heap, [0; 2]%nat).
Proof.
  assert (Hnode : example_heap !! 0%nat
                  = Some (Node.mk (lit "div")
                      {[ lit "id" := lit "topDiv";
                         lit "class" := lit "container" ]}
                      [1%nat; 2%nat])) by (by vm_compute).
  assert (Hkids : Forall2 (λ child r,
            query_selector_all 1 example_heap child (lit "div, span")
              = Some (example_heap, r))
            [1%nat; 2%nat] [[]; [2%nat]]).
  { repeat constructor; by vm_compute. }
  rewrite (X18_query_from_children 1 example_heap 0 (lit "div, span") _ _
             Hnode Hkids).
  by vm_compute.
Defined.

Section walk_reach.
Variable sels : Selectors.t.

Lemma for_each_sound h (a : addr) (body : addr → M unit) :
  (∀ c σ u σ', objects σ = h → body c σ = Some (u, σ') →
     objects σ' = h ∧ ∃ l, matched σ' = matched σ ++ l
       ∧ Forall (λ b, rtc (edge h) c b ∧ matches h sels b = true) l) →
  ∀ cs σ u σ', (∀ c, c ∈ cs → edge h a c) → objects σ = h →
    for_each cs body σ = Some (u, σ') →
    ∃ l, matched σ' = matched σ ++ l
         ∧ Forall (λ b, rtc (edge h) a b ∧ matches h sels b = true) l.
Proof.
  intros Hbody. induction cs as [|c cs IH]; intros σ u σ' Hcs Hσ Hrun.
  - simpl in Hrun. unfold mret, M_ret in Hrun. simplify_eq.
    exists []. by rewrite app_nil_r.
  - rewrite for_each_cons in Hrun.
    destruct (body c σ) as [[u2 σ2]|] eqn:Hc; [|done].
    apply Hbody in Hc as (Hσ2 & l2 & Hl2 & Hall2); [|done].
    apply IH in Hrun as (l3 & Hl3 & Hall3);
      [|intros; apply Hcs; by right|done].
    exists (l2 ++ l3). split; [by rewrite Hl3, Hl2, app_assoc|].
    apply Forall_app. split; [|done].
    eapply Forall_impl; [exact Hall2|]. intros b [Hcb Hm]. split; [|done].
    eapply rtc_l; [|exact Hcb]. apply Hcs. by left.
Qed.

Lemma verify_node_sound h fuel :
  ∀ a σ u σ', objects σ = h → verify_node fuel a sels σ = Some (u, σ') →
    objects σ' = h ∧ ∃ l, matched σ' = matched σ ++ l
      ∧ Forall (λ b, rtc (edge h) a b ∧ matches h sels b = true) l.
Proof.
  induction fuel as [|fuel IH]; intros a σ u σ' Hσ Hrun; [done|].
  split; [by apply verify_node_frame in Hrun as [-> _]|].
  destruct (verify_node_Some _ _ _ _ _ Hrun) as (? & n & _ & Hn).
  rewrite (verify_node_S _ _ _ _ n) in Hrun by done. rewrite Hσ in Hn.
  set (σ1 := if Selectors.match_node sels n then extend σ [a] else σ) in *.
  apply (for_each_sound h a) in Hrun as (l & Hl & Hall).
  - destruct (Selectors.match_node sels n) eqn:Hm; subst σ1; simpl in Hl.
    + exists (a :: l). split; [by rewrite Hl, <- app_assoc|].
      constructor; [|done]. split; [done|]. unfold matches. by rewrite Hn.
    + by exists l.
  - intros c σ2 u2 σ2' Hσ2 Hc. by apply (IH c σ2 u2 σ2').
  - intros c Hc. by exists n.
  - subst σ1. by destruct (Selectors.match_node sels n).
Qed.

Lemma for_each_complete h (body : addr → M unit) (b : addr) :
  (∀ c σ u σ', body c σ = Some (u, σ') →
     objects σ' = objects σ ∧ ∃ l, matched σ' = matched σ ++ l) →
  ∀ cs σ u σ' c, c ∈ cs → objects σ = h →
    for_each cs body σ = Some (u, σ') →
    (∀ σ1 u1 σ1', objects σ1 = h → body c σ1 = Some (u1, σ1') →
       b ∈ matched σ1') →
    b ∈ matched σ'.
Proof.
  intros Hframe. induction cs as [|x cs IH]; intros σ u σ' c Hin Hσ Hrun Hc.
  - by apply not_elem_of_nil in Hin.
  - rewrite for_each_cons in Hrun.
    destruct (body x σ) as [[u2 σ2]|] eqn:Hx; [|done].
    pose proof (Hframe _ _ _ _ Hx) as (Hσ2 & l2 & Hl2).
    apply elem_of_cons in Hin as [->|Hin].
    + apply Hc in Hx; [|done].
      assert (Hgrow : ∃ l, matched σ' = matched σ2 ++ l).
      { clear -Hframe Hrun. revert σ2 Hrun.
        induction cs as [|y cs IHcs]; intros σ2 Hrun.
        - simpl in Hrun. unfold mret, M_ret in Hrun. simplify_eq.
          exists []. by rewrite app_nil_r.
        - rewrite for_each_cons in Hrun.
          destruct (body y σ2) as [[u3 σ3]|] eqn:Hy; [|done].
          apply Hframe in Hy as (_ & l3 & Hl3).
          apply IHcs in Hrun as [l4 Hl4].
          exists (l3 ++ l4). by rewrite Hl4, Hl3, app_assoc. }
      destruct Hgrow as [l ->]. apply elem_of_app. by left.
    + eapply IH; [exact Hin| |exact Hrun|exact Hc]. congruence.
Qed.

Lemma verify_node_complete h fuel :
  ∀ a b σ u σ', objects σ = h → rtc (edge h) a b →
    matches h sels b = true →
    verify_node fuel a sels σ = Some (u, σ') → b ∈ matched σ'.
Proof.
  induction fuel as [|fuel IH]; intros a b σ u σ' Hσ Hab Hm Hrun; [done|].
  destruct (verify_node_Some _ _ _ _ _ Hrun) as (? & n & _ & Hn).
  pose proof Hrun as Hgrow. apply verify_node_frame in Hgrow as [_ [l Hl]].
  rewrite (verify_node_S _ _ _ _ n) in Hrun by done. rewrite Hσ in Hn.
  set (σ1 := if Selectors.match_node sels n then extend σ [a] else σ) in *.
  assert (Hσ1 : objects σ1 = h)
    by (subst σ1; by destruct (Selectors.match_node sels n)).
  destruct Hab as [a|a c b (n' & Hn' & Hc) Hcb].
  - unfold matches in Hm. rewrite Hn in Hm.
    assert (Hin : a ∈ matched σ1).
    { subst σ1. rewrite Hm. simpl. apply elem_of_app. right. by left. }
    clearbody σ1. clear -Hrun Hin. revert σ1 Hrun Hin.
    induction (Node.children n) as [|y cs IHcs]; intros σ1 Hrun Hin.
    + simpl in Hrun. unfold mret, M_ret in Hrun. by simplify_eq.
    + rewrite for_each_cons in Hrun.
      destruct (verify_node fuel y sels σ1) as [[u3 σ3]|] eqn:Hy; [|done].
      apply verify_node_frame in Hy as (_ & l3 & Hl3).
      apply (IHcs σ3); [done|]. rewrite Hl3. apply elem_of_app. by left.
  - simplify_eq.
    eapply (for_each_complete _ _ b); [| exact Hc | exact Hσ1 | exact Hrun |].
    + intros c0 σ0 u0 σ0' Hc0. cbv beta in Hc0.
      by apply verify_node_frame in Hc0.
    + intros σ2 u2 σ2' Hσ2 Hc2. by eapply (IH c b σ2).
Qed.

End walk_reach.

(** X19.  On any store, tree or not, a query that returns gives the nodes
    that can be reached from the start node through children and that
    pass the selector list, and no other: every reachable match is found,
    a matching node above or beside the start node is not. *)
Theorem X19_result_is_reachable_matches
    (fuel : nat) (h h' : gmap addr Node.t) (node : addr) (selector : str)
    (res : list addr)
    (Hrun : query_selector_all fuel h node selector = Some (h', res)) :
  ∀ b, b ∈ res ↔
         rtc (edge h) node b
         ∧ matches h (Selectors.from_str selector) b = true.
Proof.
  unfold query_selector_all in Hrun.
  destruct (verify_node fuel _ _ _) as [[u σ]|] eqn:Hv; [|done].
  simplify_eq/=. intros b. split.
  - intros Hb. apply (verify_node_sound _ h) in Hv as (_ & l & Hl & Hall);
      [|done].
    simpl in Hl. rewrite Hl in Hb. rewrite Forall_forall in Hall.
    by apply Hall.
  - intros [Hreach Hm].
    by eapply (verify_node_complete _ h) in Hv.
Qed.

Lemma X19_result_is_reachable_matches_witness :
  (2%nat ∈ [2%nat]) ↔
    rtc (edge example_heap) 2%nat 2%nat
    ∧ matches example_heap (Selectors.from_str (lit "div, span")) 2%nat = true.
Proof.
  assert (Hrun : query_selector_all 1 example_heap 2 (lit "div, span")
                 = Some (example_heap, [2%nat])) by (by vm_compute).
  exact (X19_result_is_reachable_matches 1 example_heap example_heap 2
           (lit "div, span") [2%nat] Hrun 2%nat).
Defined.
